(** * rtree: a radix tree for URL-shaped keys with wildcard path params

    Shallow embedding of the Go package [rtree] (version v1.0.2) and the
    properties of its insertion, lookup and validation routines.

    Go strings are byte strings: every [strings.*] call the package makes
    searches for an ASCII byte ('/', '{' or '}'), so a key is modelled as a
    list of 8-bit characters.  Go [int] lengths and offsets are natural
    numbers; the [uint8] segment position keeps its wrap-around. *)

From Stdlib Require Import ZArith Ascii String.
From stdpp Require Import gmap strings list fin_maps.

Local Open Scope nat_scope.

(** ** Strings *)

Abbreviation gostring := (list ascii).

(** A Go string literal. *)
Definition str (s : string) : gostring := list_ascii_of_string s.

Definition slash : ascii := "/"%char.
Definition curlyStart : ascii := "{"%char.
Definition curlyEnd : ascii := "}"%char.

(** [strings.ContainsRune(s, c)] for an ASCII rune [c]. *)
Definition ContainsRune (s : gostring) (c : ascii) : bool :=
  existsb (Ascii.eqb c) s.

(** [strings.Count(s, string(c))]. *)
Definition Count (s : gostring) (c : ascii) : nat :=
  length (filter (λ x, x = c) s).

(** [strings.IndexRune(s, c)]: index of the first [c], or -1. *)
Fixpoint IndexRune (s : gostring) (c : ascii) : Z :=
  match s with
  | [] => (-1)%Z
  | x :: s' =>
      if Ascii.eqb x c then 0%Z
      else let r := IndexRune s' c in
           if (r =? -1)%Z then (-1)%Z else (r + 1)%Z
  end.

(** [strings.Split(s, string(sep))]; the split of the empty string is the
    one-element slice holding the empty string. *)
Fixpoint Split (s : gostring) (sep : ascii) : list gostring :=
  match s with
  | [] => [[]]
  | c :: s' =>
      if Ascii.eqb c sep then [] :: Split s' sep
      else match Split s' sep with
           | seg :: segs => (c :: seg) :: segs
           | [] => [[c]]
           end
  end.

(** ** Errors *)

Inductive error : Set :=
  | errBadPathParamSyntax
  | errKeyIsAlreadyStored
  | errKeyIsEmpty
  | errMissingSlashPrefix
  | errNoCommonPrefix
  | errPresentSlashSuffix
  | errRootIsNil
  | errTreeIsNil.

#[global] Instance error_eq_dec : EqDecision error.
Proof. solve_decision. Defined.

(** ** Prefix computation *)

(** [longestCommonPrefix]: the counter loop walks both strings in lockstep
    and stops at the first difference or at the end of the shorter one. *)
Fixpoint longestCommonPrefix (str1 str2 : gostring) : nat :=
  match str1, str2 with
  | a :: s1, b :: s2 =>
      if Ascii.eqb a b then S (longestCommonPrefix s1 s2) else 0
  | _, _ => 0
  end.

(** ** Key validation *)

(** The scanning loop of [checkPathParams], from position [counter] on,
    where [url] is the unread rest of the key. *)
Fixpoint checkPathParams_loop (url : gostring) (insideParam : bool)
  : option error :=
  match url with
  | [] => if insideParam then Some errBadPathParamSyntax else None
  | c :: url' =>
      if Ascii.eqb c slash && insideParam then Some errBadPathParamSyntax
      else if Ascii.eqb c curlyStart then
        if insideParam then Some errBadPathParamSyntax
        else checkPathParams_loop url' true
      else if Ascii.eqb c curlyEnd then
        if negb insideParam then Some errBadPathParamSyntax
        else checkPathParams_loop url' false
      else checkPathParams_loop url' insideParam
  end.

Definition checkPathParams (url : gostring) : option error :=
  if negb (ContainsRune url curlyStart) && negb (ContainsRune url curlyEnd)
  then None
  else checkPathParams_loop url false.

(** [checkUrl] indexes [url[0]], which panics on the empty string; [Insert]
    rejects the empty key before it calls [checkUrl], so the model gives the
    empty string the answer of the first test. *)
Definition checkUrl (url : gostring) : option error :=
  if negb (bool_decide (head url = Some slash)) then Some errMissingSlashPrefix
  else if bool_decide (last url = Some slash) && negb (bool_decide (url = [slash]))
  then Some errPresentSlashSuffix
  else checkPathParams url.

(** ** The offset scanner *)

(** The loop of [getOffsets].  [stored] is [storedKey[i:]]; every iteration
    that does not break advances [i] by one. *)
Fixpoint getOffsets_loop (stored searchKey : gostring) (i j : nat)
    (isWildcard : bool) : nat * nat * bool :=
  match stored with
  | [] => (i, j, isWildcard)
  | c :: stored' =>
      if (length searchKey <=? j) && negb isWildcard then (i, j, isWildcard)
      else if Ascii.eqb c curlyStart then
        getOffsets_loop stored' searchKey (S i) j true
      else if Ascii.eqb c curlyEnd then
        let cSearchRem := drop j searchKey in
        let nextSlashIdx := IndexRune cSearchRem slash in
        let j' := j + (if (nextSlashIdx =? -1)%Z then length cSearchRem
                       else Z.to_nat nextSlashIdx) in
        getOffsets_loop stored' searchKey (S i) j' false
      else if isWildcard then
        getOffsets_loop stored' searchKey (S i) j isWildcard
      else if negb (bool_decide (searchKey !! j = Some c)) then
        (i, j, isWildcard)
      else getOffsets_loop stored' searchKey (S i) (S j) isWildcard
  end.

Definition getOffsets (storedKey searchKey : gostring) (isWildcard : bool)
  : nat * nat * bool :=
  getOffsets_loop storedKey searchKey 0 0 isWildcard.

(** ** Wildcard parameters *)

Record paramInfo : Set := mkParamInfo { pi_key : gostring; pi_pos : Z }.

#[global] Instance paramInfo_eq_dec : EqDecision paramInfo.
Proof. solve_decision. Defined.

(** Conversion of an [int] to [uint8]. *)
Definition uint8 (i : Z) : Z := (i mod 256)%Z.

(** The zero value of [paramInfo], with which [make] fills the slice. *)
Definition zeroParamInfo : paramInfo := mkParamInfo [] 0.

(** The loop of [getPathParams] over [splitted[i:]].  A write
    [params[counter] = ...] past the end of the slice would panic in Go and
    leaves the list as it is here; [getPathParams_loop_spec] shows that
    every write lands inside the slice. *)
Fixpoint getPathParams_loop (splitted : list gostring) (i counter : nat)
    (params : list paramInfo) : list paramInfo :=
  match splitted with
  | [] => params
  | el :: rest =>
      if negb (ContainsRune el curlyStart) then
        getPathParams_loop rest (S i) counter params
      else
        let l := length el in
        if l <? 2 then getPathParams_loop rest (S i) counter params
        else
          let p := mkParamInfo (drop 1 (take (l - 1) el))
                               (uint8 (Z.of_nat i)) in
          getPathParams_loop rest (S i) (S counter) (<[counter := p]> params)
  end.

Definition getPathParams (v : gostring) : list paramInfo :=
  let paramCount := Count v curlyStart in
  let params := replicate paramCount zeroParamInfo in
  let splitted := Split v slash in
  getPathParams_loop splitted 0 0 params.

Abbreviation matchedParams := (gmap gostring gostring).

(** The loop of [matchParams]; a later binding of a name overwrites an
    earlier one, as a Go map assignment does. *)
Fixpoint matchParams_loop (params : list paramInfo) (spl : list gostring)
    (mp : matchedParams) : matchedParams :=
  match params with
  | [] => mp
  | p :: rest =>
      let pos := Z.to_nat (pi_pos p) in
      if length spl <=? pos then matchParams_loop rest spl mp
      else match spl !! pos with
           | Some seg => matchParams_loop rest spl (<[pi_key p := seg]> mp)
           | None => matchParams_loop rest spl mp
           end
  end.

Definition matchParams (params : list paramInfo) (v : gostring)
  : matchedParams :=
  matchParams_loop params (Split v slash) ∅.

(** ** Nodes and trees *)

Section Tree.

Context {T : Type}.

Record NodeValue : Type := mkNodeValue { nv_value : T; nv_params : list paramInfo }.

(** A node owns its children; the Go pointers never alias (a split hands the
    old child slice to the new child and gives the node a fresh slice), so a
    node is a finitely branching tree value. *)
Inductive Node : Type :=
  mkNode { n_key : gostring; n_value : option NodeValue; n_children : list Node }.

Record FoundNode : Type := mkFoundNode { fn_value : T; fn_params : matchedParams }.

(** The tree guards its root with a mutex, which a sequential model has no
    use for.  A [*Tree] is an [option Tree]: [None] is the nil pointer. *)
Record Tree : Type := mkTree { root : option Node }.

Definition IsLeaf (n : Node) : bool :=
  match n_value n with Some _ => true | None => false end.

(** [New] without option functions (the package defines none). *)
Definition New : Tree := mkTree None.

(** [createNewNode]: the children default to an empty slice. *)
Definition createNewNode (key : gostring) (value : option NodeValue)
    (children : list Node) : Node :=
  mkNode key value children.

Definition createNewNodeValue (val : T) (paramsInfo : list paramInfo)
  : NodeValue :=
  mkNodeValue val paramsInfo.

Definition addToChildren (n newNode : Node) : Node :=
  mkNode (n_key n) (n_value n) (n_children n ++ [newNode]).

(** ** Insertion

    [insertRec] mutates the node it is given.  The model threads the node
    through: it returns the error (or [None] for nil) together with the
    node as the call leaves it, whether or not it failed. *)

Definition isNoCommonPrefix (e : error) : bool :=
  bool_decide (e = errNoCommonPrefix).

Fixpoint insertRec (n : Node) (key : gostring) (value : NodeValue)
    {struct n} : option error * Node :=
  match n with
  | mkNode nkey nvalue nchildren =>
    let lcp := longestCommonPrefix nkey key in
    if lcp =? 0 then (Some errNoCommonPrefix, n)
    else
      let currentKeyLen := length nkey in
      let keyLen := length key in
      if (currentKeyLen =? lcp) && (keyLen =? lcp) then
        if IsLeaf n then (Some errKeyIsAlreadyStored, n)
        else (None, mkNode nkey (Some value) nchildren)
      else if lcp <? currentKeyLen then
        let cNewNode := createNewNode (drop lcp nkey) nvalue nchildren in
        let keyRem := drop lcp key in
        if bool_decide (keyRem = []) then
          (None, mkNode (take lcp nkey) (Some value) [cNewNode])
        else
          let newNode := createNewNode keyRem (Some value) [] in
          (None, mkNode (take lcp nkey) None [cNewNode; newNode])
      else
        let keyRem := drop lcp key in
        let iterate :=
          fix iterate (chs : list Node) : option error * list Node :=
            match chs with
            | [] => (Some errNoCommonPrefix, [])
            | ch :: rest =>
                let '(insertErr, ch') := insertRec ch keyRem value in
                match insertErr with
                | None => (None, ch' :: rest)
                | Some e =>
                    if negb (isNoCommonPrefix e) then (Some e, ch' :: rest)
                    else let '(err, rest') := iterate rest in
                         (err, ch' :: rest')
                end
            end in
        let '(err, chs) := iterate nchildren in
        let n' := mkNode nkey nvalue chs in
        match err with
        | None => (None, n')
        | Some e =>
            if negb (isNoCommonPrefix e) then (Some e, n')
            else (None, addToChildren n' (createNewNode keyRem (Some value) []))
        end
  end.

(** [iterateInsert] on the child slice of a node: the loop that
    [insertRec] runs on its children. *)
Fixpoint iterateInsert (chs : list Node) (key : gostring) (value : NodeValue)
  : option error * list Node :=
  match chs with
  | [] => (Some errNoCommonPrefix, [])
  | ch :: rest =>
      let '(insertErr, ch') := insertRec ch key value in
      match insertErr with
      | None => (None, ch' :: rest)
      | Some e =>
          if negb (isNoCommonPrefix e) then (Some e, ch' :: rest)
          else let '(err, rest') := iterateInsert rest key value in
               (err, ch' :: rest')
      end
  end.

Definition Insert (t : option Tree) (key : gostring) (value : T)
  : option error * option Tree :=
  match t with
  | None => (Some errTreeIsNil, None)
  | Some tr =>
      if bool_decide (key = []) then (Some errKeyIsEmpty, t)
      else match checkUrl key with
           | Some err => (Some err, t)
           | None =>
               let paramInfos := getPathParams key in
               let nv := createNewNodeValue value paramInfos in
               match root tr with
               | None => (None, Some (mkTree (Some (createNewNode key (Some nv) []))))
               | Some r =>
                   let '(err, r') := insertRec r key nv in
                   (err, Some (mkTree (Some r')))
               end
           end
  end.

(** Successive inserts, stopping at the first one that fails. *)
Fixpoint insertAll (kvs : list (gostring * T)) (t : option Tree)
  : option error * option Tree :=
  match kvs with
  | [] => (None, t)
  | (k, v) :: rest =>
      match Insert t k v with
      | (None, t') => insertAll rest t'
      | (Some e, t') => (Some e, t')
      end
  end.

(** ** Lookup *)

Definition checkTree (t : option Tree) : option error :=
  match t with
  | None => Some errTreeIsNil
  | Some tr => match root tr with
               | None => Some errRootIsNil
               | Some _ => None
               end
  end.

(** [findRec]; the nodes of a child slice are never nil, so the nil test
    of the Go function only concerns the root, which [checkTree] covers. *)
Fixpoint findRec (n : Node) (key : gostring) (isWildcard : bool)
    {struct n} : option Node :=
  match n with
  | mkNode nkey nvalue nchildren =>
    let isWildcard := if ContainsRune nkey curlyStart then true else isWildcard in
    let lcp := longestCommonPrefix nkey key in
    if (lcp =? 0) && negb isWildcard then None
    else if negb isWildcard then
      if bool_decide (key = nkey) then Some n
      else if lcp <? length nkey then None
      else
        (fix loop (chs : list Node) : option Node :=
           match chs with
           | [] => None
           | c :: rest =>
               match findRec c (drop lcp key) isWildcard with
               | Some found => Some found
               | None => loop rest
               end
           end) nchildren
    else
      let nodeKeyRem := drop lcp nkey in
      let searchKeyRem := drop lcp key in
      let '(offset1, offset2, isStillWildcard) :=
        getOffsets nodeKeyRem searchKeyRem true in
      if negb (length nodeKeyRem =? offset1) then None
      else
        let newSearchKey := drop offset2 searchKeyRem in
        if bool_decide (newSearchKey = []) then
          if IsLeaf n then Some n else None
        else
          (fix loop (chs : list Node) : option Node :=
             match chs with
             | [] => None
             | ch :: rest =>
                 match findRec ch newSearchKey isStillWildcard with
                 | Some found => Some found
                 | None => loop rest
                 end
             end) nchildren
  end.

(** The child loop of [findRec], as a function of its own. *)
Fixpoint findFirst (chs : list Node) (key : gostring) (isWildcard : bool)
  : option Node :=
  match chs with
  | [] => None
  | c :: rest =>
      match findRec c key isWildcard with
      | Some found => Some found
      | None => findFirst rest key isWildcard
      end
  end.

Definition Find (t : option Tree) (key : gostring) : option FoundNode :=
  match checkTree t, t with
  | Some _, _ | _, None => None
  | None, Some tr =>
      if bool_decide (key = []) then None
      else match root tr with
           | None => None
           | Some r =>
               match findRec r key false with
               | None => None
               | Some n =>
                   match n_value n with
                   | None => None
                   | Some nv =>
                       Some (mkFoundNode (nv_value nv)
                                         (matchParams (nv_params nv) key))
                   end
               end
           end
  end.

(** ** Longest-prefix lookup *)

Fixpoint findLongestMatchRec (n : Node) (key : gostring) {struct n}
  : option Node :=
  match n with
  | mkNode nkey nvalue nchildren =>
    let lcp := longestCommonPrefix nkey key in
    if lcp =? 0 then None
    else if negb (lcp =? length nkey) then None
    else
      let inChildren :=
        (fix loop (chs : list Node) : option Node :=
           match chs with
           | [] => None
           | ch :: rest =>
               match findLongestMatchRec ch (drop lcp key) with
               | Some node => Some node
               | None => loop rest
               end
           end) nchildren in
      match inChildren with
      | Some node => Some node
      | None => if negb (IsLeaf n) then None else Some n
      end
  end.

(** The child loop of [findLongestMatchRec]. *)
Fixpoint findLongestFirst (chs : list Node) (key : gostring) : option Node :=
  match chs with
  | [] => None
  | ch :: rest =>
      match findLongestMatchRec ch key with
      | Some node => Some node
      | None => findLongestFirst rest key
      end
  end.

Definition FindLongestMatch (t : option Tree) (key : gostring)
  : option FoundNode :=
  match checkTree t, t with
  | Some _, _ | _, None => None
  | None, Some tr =>
      if bool_decide (key = []) then None
      else match root tr with
           | None => None
           | Some r =>
               match findLongestMatchRec r key with
               | None => None
               | Some n =>
                   match n_value n with
                   | None => None
                   | Some nv => Some (mkFoundNode (nv_value nv) ∅)
                   end
               end
           end
  end.

(** ** Traversals *)

Fixpoint getAllLeafRec (n : Node) : list Node :=
  match n with
  | mkNode nkey nvalue nchildren =>
    let arr :=
      (fix loop (chs : list Node) (arr : list Node) : list Node :=
         match chs with
         | [] => arr
         | c :: rest =>
             let chArr := getAllLeafRec c in
             loop rest (if 0 <? length chArr then arr ++ chArr else arr)
         end) nchildren [] in
    if IsLeaf n then arr ++ [n] else arr
  end.

Definition GetAllLeaf (t : option Tree) : list Node :=
  match checkTree t, t with
  | Some _, _ | _, None => []
  | None, Some tr =>
      match root tr with
      | None => []
      | Some r => getAllLeafRec r
      end
  end.

Fixpoint getByPredicateRec (n : Node) (fn : Node → bool) : option Node :=
  match n with
  | mkNode nkey nvalue nchildren =>
    if fn n then Some n
    else
      (fix loop (chs : list Node) : option Node :=
         match chs with
         | [] => None
         | ch :: rest =>
             match getByPredicateRec ch fn with
             | Some m => Some m
             | None => loop rest
             end
         end) nchildren
  end.

Definition GetByPredicate (t : option Tree) (fn : Node → bool)
  : option Node :=
  match checkTree t, t with
  | Some _, _ | _, None => None
  | None, Some tr =>
      match root tr with
      | None => None
      | Some r => getByPredicateRec r fn
      end
  end.

End Tree.

Arguments NodeValue : clear implicits.
Arguments Node : clear implicits.
Arguments FoundNode : clear implicits.
Arguments Tree : clear implicits.

(** ** Structural predicates on trees *)

(** [shadows w k]: the test [findRec] makes on a childless node in
    wildcard mode, put to the two keys where they part: past their longest
    common prefix, the scan of [getOffsets] in wildcard mode reaches the end
    of what is left of [w] and leaves nothing of [k]. *)
Definition shadows (w k : gostring) : bool :=
  let lcp := longestCommonPrefix w k in
  let '(offset1, offset2, _) := getOffsets (drop lcp w) (drop lcp k) true in
  (length (drop lcp w) =? offset1) &&
  bool_decide (drop offset2 (drop lcp k) = []).



Section TreePredicates.

Context {T : Type}.

(** The children of one parent: fragments of two different children never
    start with the same character. *)
Definition siblingsDistinct (chs : list (Node T)) : Prop :=
  ∀ i j c1 c2, i ≠ j → chs !! i = Some c1 → chs !! j = Some c2 →
    head (n_key c1) ≠ head (n_key c2).

(** A maximally compressed tree: every fragment is non-empty and, at every
    node, the children are pairwise distinct in their leading character. *)
Inductive compressed : Node T → Prop :=
  compressed_node k v chs :
    k ≠ [] → siblingsDistinct chs → Forall compressed chs →
    compressed (mkNode k v chs).

(** [Stored n k nv]: the fragments on a path from [n] down to a node that
    carries the payload [nv] spell the key [k]. *)
Inductive Stored : Node T → gostring → NodeValue T → Prop :=
  | Stored_here k nv chs : Stored (mkNode k (Some nv) chs) k nv
  | Stored_child k v chs c k' nv :
      c ∈ chs → Stored c k' nv → Stored (mkNode k v chs) (k ++ k') nv.

(** No fragment of the tree opens a wildcard. *)
Inductive nowild : Node T → Prop :=
  nowild_node k v chs :
    ContainsRune k curlyStart = false → Forall nowild chs →
    nowild (mkNode k v chs).

(** [Reaches n key d m]: the descent of the longest-prefix lookup, started
    at [n] with the remaining key [key], reaches the node [m], [d] levels
    below [n].  The descent passes a node only where the longest common
    prefix of its fragment and the remaining key is the whole fragment, and
    is not zero. *)
Inductive Reaches : Node T → gostring → nat → Node T → Prop :=
  | Reaches_here n key :
      longestCommonPrefix (n_key n) key = length (n_key n) →
      longestCommonPrefix (n_key n) key ≠ 0 →
      Reaches n key 0 n
  | Reaches_child n key c d m :
      longestCommonPrefix (n_key n) key = length (n_key n) →
      longestCommonPrefix (n_key n) key ≠ 0 →
      c ∈ n_children n →
      Reaches c (drop (length (n_key n)) key) d m →
      Reaches n key (S d) m.




(** The leading characters of the fragments of a child slice. *)
Definition heads (chs : list (Node T)) : list (option ascii) :=
  map (λ c, head (n_key c)) chs.

(** A failing [insertRec] hands the node back as it was, and fails in one
    of two ways. *)
Definition failure_ok (n : Node T) : Prop :=
  ∀ key value e n', insertRec n key value = (Some e, n') →
    n' = n ∧
    ((e = errNoCommonPrefix ∧ longestCommonPrefix (n_key n) key = 0) ∨
     (e = errKeyIsAlreadyStored ∧ longestCommonPrefix (n_key n) key ≠ 0)).

(** A successful [insertRec] on a compressed node. *)
Definition success_ok (n : Node T) : Prop :=
  compressed n → ∀ key value n', insertRec n key value = (None, n') →
    compressed n' ∧ head (n_key n') = head (n_key n) ∧ Stored n' key value ∧
    (∀ k0 nv0, Stored n k0 nv0 → Stored n' k0 nv0) ∧
    (nowild n → ContainsRune key curlyStart = false → nowild n').

(** The result of [findLongestMatchRec] on a compressed tree: the deepest
    payload-carrying node the descent reaches, or nothing when it reaches no
    such node. *)
Definition deepest_ok (n : Node T) : Prop :=
  compressed n → ∀ key,
    match findLongestMatchRec n key with
    | Some m =>
        IsLeaf m = true ∧
        ∃ d, Reaches n key d m ∧
             ∀ d' m', Reaches n key d' m' → IsLeaf m' = true → d' ≤ d
    | None => ∀ d' m', Reaches n key d' m' → IsLeaf m' = false
    end.

(** The result of [findLongestMatchRec] on a compressed tree, in terms of
    the keys it stores: the longest stored key that is a prefix of the
    search key. *)
Definition longest_ok (n : Node T) : Prop :=
  compressed n → ∀ key,
    match findLongestMatchRec n key with
    | Some m =>
        ∃ k nv, n_value m = Some nv ∧ Stored n k nv ∧ k `prefix_of` key ∧
          ∀ k' nv', Stored n k' nv' → k' `prefix_of` key → length k' ≤ length k
    | None => ∀ k' nv', Stored n k' nv' → ¬ k' `prefix_of` key
    end.

(** The same predicates on a tree, through its root. *)
Definition treeCompressed (t : Tree T) : Prop :=
  ∀ r, root t = Some r → compressed r.

Definition treeStored (t : Tree T) (k : gostring) (nv : NodeValue T) : Prop :=
  ∃ r, root t = Some r ∧ Stored r k nv.

Definition treeNowild (t : Tree T) : Prop :=
  ∀ r, root t = Some r → nowild r.



(** The fragment of the root starts with a slash. *)
Definition rootSlash (t : Tree T) : Prop :=
  ∀ r, root t = Some r → head (n_key r) = Some slash.

End TreePredicates.

(** ** The parameter extractor as the specification words it *)

(** A segment without its first and its last character. *)
Definition stripEnds (el : gostring) : gostring :=
  drop 1 (take (length el - 1) el).

(** One descriptor per segment that holds an opening brace, in order: the
    name is the segment without its first and last character, the position
    is the index of the segment in the split, as a [uint8].  [i] is the
    index of the first segment of [segs]. *)
Fixpoint wildcards (segs : list gostring) (i : nat) : list paramInfo :=
  match segs with
  | [] => []
  | el :: rest =>
      if ContainsRune el curlyStart
      then mkParamInfo (stripEnds el) (uint8 (Z.of_nat i)) :: wildcards rest (S i)
      else wildcards rest (S i)
  end.

(** ** The validator as the specification words it

    The brace rule of the specification, written from its words and not from
    [checkPathParams]: a left-to-right scan that is inside a wildcard
    segment after an opening brace and outside after a closing one. *)

Definition scanStep (inside : bool) (c : ascii) : bool :=
  if Ascii.eqb c curlyStart then true
  else if Ascii.eqb c curlyEnd then false
  else inside.

(** Whether the scan, started in state [inside], is inside a wildcard
    segment once it has read [pre]. *)
Definition insideAfter (inside : bool) (pre : gostring) : bool :=
  fold_left scanStep pre inside.

(** The character [c], met in state [inside], is malformed: an opening
    brace inside a segment, a closing brace outside one, a slash inside. *)
Definition malformedAt (inside : bool) (c : ascii) : bool :=
  (Ascii.eqb c curlyStart && inside)
  || (Ascii.eqb c curlyEnd && negb inside)
  || (Ascii.eqb c slash && inside).

Definition malformedFrom (inside : bool) (url : gostring) : Prop :=
  (∃ pre c post, url = pre ++ c :: post ∧
                 malformedAt (insideAfter inside pre) c = true)
  ∨ insideAfter inside url = true.

Definition malformedWildcard (url : gostring) : Prop := malformedFrom false url.

(** [checkUrl] as the older copy of the file ([tree.go], before v1.0.2) has
    it: the trailing-slash test has no exception for the key ["/"]. *)
Definition checkUrl_legacy (url : gostring) : option error :=
  if negb (bool_decide (head url = Some slash)) then Some errMissingSlashPrefix
  else if bool_decide (last url = Some slash) then Some errPresentSlashSuffix
  else checkPathParams url.

(** A key whose wildcard is the segment of index 256: 255 static segments
    [a] after the leading empty one, then [{id}]. *)
Definition key256 : gostring := concat (replicate 255 (str "/a")) ++ str "/{id}".

(** ** The loops as the source indexes them

    [longestCommonPrefix] with its counter and its bound, as the source has
    it.  [min] is the helper of the package.  The loop runs at most [maxVal]
    times, which is the fuel the model gives it. *)

Definition min (num1 num2 : nat) : nat :=
  if num2 <? num1 then num2 else num1.

Fixpoint longestCommonPrefix_loop (fuel : nat) (str1 str2 : gostring)
    (counter maxVal : nat) : nat :=
  match fuel with
  | 0 => counter
  | S fuel' =>
      if (counter <? maxVal)
         && bool_decide (str1 !! counter = str2 !! counter)
      then longestCommonPrefix_loop fuel' str1 str2 (S counter) maxVal
      else counter
  end.

Definition longestCommonPrefix_indexed (str1 str2 : gostring) : nat :=
  let maxVal := min (length str1) (length str2) in
  longestCommonPrefix_loop maxVal str1 str2 0 maxVal.

(** [getPathParams] with the bounds check of the write [params[counter]]
    made explicit: [None] is the index-out-of-range panic. *)
Fixpoint getPathParams_loop_checked (splitted : list gostring)
    (i counter : nat) (params : list paramInfo) : option (list paramInfo) :=
  match splitted with
  | [] => Some params
  | el :: rest =>
      if negb (ContainsRune el curlyStart) then
        getPathParams_loop_checked rest (S i) counter params
      else
        let l := length el in
        if l <? 2 then getPathParams_loop_checked rest (S i) counter params
        else if length params <=? counter then None
        else
          let p := mkParamInfo (drop 1 (take (l - 1) el))
                               (uint8 (Z.of_nat i)) in
          getPathParams_loop_checked rest (S i) (S counter)
            (<[counter := p]> params)
  end.

Definition getPathParams_checked (v : gostring) : option (list paramInfo) :=
  getPathParams_loop_checked (Split v slash) 0 0
    (replicate (Count v curlyStart) zeroParamInfo).

(** The body of the scanning loop of [checkPathParams] as the older copy of
    the file ([tree.go]) has it: three tests one after the other, each of
    which may return the error ([None]) or go on with a state. *)
Definition checkPathParams_legacy_step (c : ascii) (insideParam : bool)
  : option bool :=
  let test1 : option bool :=
    if Ascii.eqb c slash
    then (if insideParam then None else Some insideParam)
    else Some insideParam in
  match test1 with
  | None => None
  | Some st1 =>
      let test2 : option bool :=
        if Ascii.eqb c curlyStart
        then (if st1 then None else Some true)
        else Some st1 in
      match test2 with
      | None => None
      | Some st2 =>
          if Ascii.eqb c curlyEnd
          then (if negb st2 then None else Some false)
          else Some st2
      end
  end.

Fixpoint checkPathParams_legacy_loop (url : gostring) (insideParam : bool)
  : option error :=
  match url with
  | [] => if insideParam then Some errBadPathParamSyntax else None
  | c :: url' =>
      match checkPathParams_legacy_step c insideParam with
      | None => Some errBadPathParamSyntax
      | Some insideParam' => checkPathParams_legacy_loop url' insideParam'
      end
  end.

Definition checkPathParams_legacy (url : gostring) : option error :=
  if negb (ContainsRune url curlyStart) && negb (ContainsRune url curlyEnd)
  then None
  else checkPathParams_legacy_loop url false.

(** [checkUrl] of the older copy, on its own [checkPathParams]. *)
Definition checkUrl_legacy_full (url : gostring) : option error :=
  if negb (bool_decide (head url = Some slash)) then Some errMissingSlashPrefix
  else if bool_decide (last url = Some slash) then Some errPresentSlashSuffix
  else checkPathParams_legacy url.

(** ** Traversal orders

    The nodes of a tree, parent first and children in slice order, and
    children first and the parent last. *)

Section Orders.

Context {T : Type}.

Fixpoint preorder (n : Node T) : list (Node T) :=
  match n with
  | mkNode _ _ chs => n :: concat (map preorder chs)
  end.

Fixpoint postorder (n : Node T) : list (Node T) :=
  match n with
  | mkNode _ _ chs => concat (map postorder chs) ++ [n]
  end.

(** The payloads of a list of nodes. *)
Definition payloads (ns : list (Node T)) : list (NodeValue T) :=
  omap n_value ns.

(** The payload [Insert] stores for a key and a value. *)
Definition payloadOf (kv : gostring * T) : NodeValue T :=
  createNewNodeValue kv.2 (getPathParams kv.1).

End Orders.

(** ** Keys with one wildcard segment

    The key [pre/{name}post] and a search key [pre/s post] that puts the
    text [s] where the wildcard segment is. *)

Definition wildcardKey (pre name post : gostring) : gostring :=
  pre ++ slash :: (curlyStart :: name ++ [curlyEnd]) ++ post.

Definition wildcardSearch (pre s post : gostring) : gostring :=
  pre ++ slash :: s ++ post.

(** A string that holds neither brace. *)
Definition braceFree (x : gostring) : bool :=
  negb (ContainsRune x curlyStart) && negb (ContainsRune x curlyEnd).

(** * Properties *)

(** ** Strings and prefixes *)

Lemma ascii_eqb_true (a b : ascii) : Ascii.eqb a b = true ↔ a = b.
Proof. apply Ascii.eqb_eq. Qed.

Lemma ascii_eqb_false (a b : ascii) : Ascii.eqb a b = false ↔ a ≠ b.
Proof. apply Ascii.eqb_neq. Qed.

Ltac ascii_cases :=
  repeat match goal with
  | |- context [Ascii.eqb ?a ?b] =>
      let E := fresh "E" in
      destruct (Ascii.eqb a b) eqn:E;
      [apply ascii_eqb_true in E | apply ascii_eqb_false in E]
  end.

Lemma lcp_le_l (a b : gostring) : longestCommonPrefix a b ≤ length a.
Proof.
  revert b; induction a as [|x a IH]; intros [|y b]; simpl; try lia.
  destruct (Ascii.eqb x y); [specialize (IH b)|]; lia.
Qed.

Lemma lcp_le_r (a b : gostring) : longestCommonPrefix a b ≤ length b.
Proof.
  revert b; induction a as [|x a IH]; intros [|y b]; simpl; try lia.
  destruct (Ascii.eqb x y); [specialize (IH b)|]; lia.
Qed.

Lemma lcp_take (a b : gostring) :
  take (longestCommonPrefix a b) a = take (longestCommonPrefix a b) b.
Proof.
  revert b; induction a as [|x a IH]; intros [|y b]; simpl; try done.
  ascii_cases; simpl; [by rewrite IH, E | done].
Qed.

Lemma lcp_app (a b : gostring) : longestCommonPrefix a (a ++ b) = length a.
Proof.
  induction a as [|x a IH]; simpl; [by destruct b|].
  by rewrite Ascii.eqb_refl, IH.
Qed.

Lemma lcp_app_same (a x y : gostring) :
  longestCommonPrefix (a ++ x) (a ++ y) = length a + longestCommonPrefix x y.
Proof.
  induction a as [|c a IH]; [done|]. cbn. by rewrite Ascii.eqb_refl, IH.
Qed.

Lemma lcp_refl (a : gostring) : longestCommonPrefix a a = length a.
Proof. pose proof (lcp_app a []) as H. by rewrite app_nil_r in H. Qed.

Lemma lcp_full_l (a b : gostring) :
  longestCommonPrefix a b = length a → b = a ++ drop (length a) b.
Proof.
  intros H. pose proof (lcp_take a b) as Ht. rewrite H in Ht.
  rewrite firstn_all in Ht. rewrite Ht at 1. by rewrite take_drop.
Qed.

Lemma lcp_zero (a b : gostring) :
  longestCommonPrefix a b = 0 ↔ a = [] ∨ b = [] ∨ head a ≠ head b.
Proof.
  destruct a as [|x a], b as [|y b]; simpl; try naive_solver.
  ascii_cases; split; try done; naive_solver.
Qed.

Lemma lcp_heads (a b : gostring) :
  longestCommonPrefix a b ≠ 0 → head a = head b ∧ a ≠ [] ∧ b ≠ [].
Proof.
  destruct a as [|x a], b as [|y b]; simpl; try done.
  ascii_cases; [by subst | done].
Qed.

(** After the common prefix the two remainders differ at once. *)
Lemma lcp_drop (a b : gostring) :
  longestCommonPrefix (drop (longestCommonPrefix a b) a)
                      (drop (longestCommonPrefix a b) b) = 0.
Proof.
  revert b; induction a as [|x a IH]; intros [|y b]; simpl; try done.
  ascii_cases; simpl; [apply IH | by rewrite (proj2 (ascii_eqb_false x y))].
Qed.

Lemma head_take_pos {A} (l : list A) n : 0 < n → head (take n l) = head l.
Proof. destruct n, l; simpl; auto; lia. Qed.

Lemma ContainsRune_cons (c : ascii) (s : gostring) (a : ascii) :
  ContainsRune (c :: s) a = Ascii.eqb c a || ContainsRune s a.
Proof. unfold ContainsRune. cbn [existsb]. by rewrite Ascii.eqb_sym. Qed.


Lemma ContainsRune_false (s : gostring) (c : ascii) :
  ContainsRune s c = false ↔ c ∉ s.
Proof.
  unfold ContainsRune. induction s as [|x s IH]; simpl.
  - split; [intros _ H; inversion H | done].
  - rewrite orb_false_iff, IH, ascii_eqb_false, not_elem_of_cons. naive_solver.
Qed.

Lemma ContainsRune_true (s : gostring) (c : ascii) :
  ContainsRune s c = true ↔ c ∈ s.
Proof.
  destruct (ContainsRune s c) eqn:E.
  - split; [|done]. intros _. destruct (decide (c ∈ s)) as [|H]; [done|].
    apply ContainsRune_false in H. congruence.
  - apply ContainsRune_false in E. split; [done | tauto].
Qed.

(** ** The validator *)

Lemma checkPathParams_loop_cons c url st :
  checkPathParams_loop (c :: url) st =
    if malformedAt st c then Some errBadPathParamSyntax
    else checkPathParams_loop url (scanStep st c).
Proof.
  cbn [checkPathParams_loop]. unfold malformedAt, scanStep.
  destruct (Ascii.eqb c slash) eqn:E1, (Ascii.eqb c curlyStart) eqn:E2,
    (Ascii.eqb c curlyEnd) eqn:E3, st; cbn; try done.
  all: repeat match goal with
         | H : Ascii.eqb _ _ = true |- _ => apply ascii_eqb_true in H
         end; subst; discriminate.
Qed.

Lemma malformedFrom_nil st : malformedFrom st [] ↔ st = true.
Proof.
  unfold malformedFrom. cbn. split; [|by right].
  intros [(pre & c & post & H & _) | H]; [by destruct pre | done].
Qed.

Lemma malformedFrom_cons st c url :
  malformedFrom st (c :: url) ↔
  malformedAt st c = true ∨ malformedFrom (scanStep st c) url.
Proof.
  unfold malformedFrom. cbn. split.
  - intros [(pre & c0 & post & H & Hbad) | H]; [|by right; right].
    destruct pre as [|p pre]; cbn in *; simplify_eq; [by left|].
    right. left. by exists pre, c0, post.
  - intros [H | [(pre & c0 & post & -> & Hbad) | H]].
    + left. by exists [], c, url.
    + left. by exists (c :: pre), c0, post.
    + by right.
Qed.

Lemma checkPathParams_loop_spec url : ∀ st,
  (checkPathParams_loop url st = Some errBadPathParamSyntax ↔ malformedFrom st url)
  ∧ (checkPathParams_loop url st = None ↔ ¬ malformedFrom st url).
Proof.
  induction url as [|c url IH]; intros st.
  - rewrite malformedFrom_nil. cbn. destruct st; split; split; naive_solver.
  - rewrite checkPathParams_loop_cons, malformedFrom_cons.
    destruct (malformedAt st c); [naive_solver|].
    destruct (IH (scanStep st c)) as [H1 H2]. rewrite H1, H2. naive_solver.
Qed.

Lemma checkPathParams_loop_no_braces url :
  ContainsRune url curlyStart = false → ContainsRune url curlyEnd = false →
  checkPathParams_loop url false = None.
Proof.
  unfold ContainsRune. induction url as [|c url IH]; [done|].
  cbn [existsb]. intros [H1 H1']%orb_false_iff [H2 H2']%orb_false_iff.
  rewrite checkPathParams_loop_cons. unfold malformedAt, scanStep.
  rewrite Ascii.eqb_sym in H1. rewrite Ascii.eqb_sym in H2.
  rewrite H1, H2. cbn. rewrite andb_false_r. by apply IH.
Qed.

(** The early exit of [checkPathParams] is a shortcut and nothing more. *)
Lemma checkPathParams_loop_eq url :
  checkPathParams url = checkPathParams_loop url false.
Proof.
  unfold checkPathParams.
  destruct (ContainsRune url curlyStart) eqn:E1; [done|].
  destruct (ContainsRune url curlyEnd) eqn:E2; [done|].
  cbn. by rewrite checkPathParams_loop_no_braces.
Qed.

Lemma checkPathParams_spec url :
  (checkPathParams url = Some errBadPathParamSyntax ↔ malformedWildcard url)
  ∧ (checkPathParams url = None ↔ ¬ malformedWildcard url).
Proof. rewrite checkPathParams_loop_eq. apply checkPathParams_loop_spec. Qed.

Lemma checkPathParams_errors url e :
  checkPathParams url = Some e → e = errBadPathParamSyntax.
Proof.
  rewrite checkPathParams_loop_eq. generalize false.
  induction url as [|c url IH]; intros st.
  - cbn. destruct st; congruence.
  - rewrite checkPathParams_loop_cons. destruct (malformedAt st c); [congruence | apply IH].
Qed.

(** The older [checkUrl] differs from the current one on the key ["/"]
    alone, which it rejects for its trailing slash. *)
Lemma checkUrl_legacy_diff url :
  checkUrl_legacy [slash] = Some errPresentSlashSuffix ∧
  checkUrl [slash] = None ∧
  (url ≠ [slash] → checkUrl_legacy url = checkUrl url).
Proof.
  split; [done|]. split; [done|]. intros Hne. unfold checkUrl_legacy, checkUrl.
  by rewrite (bool_decide_eq_false_2 _ Hne), andb_true_r.
Qed.

(** ** The parameter extractor *)

Lemma Count_zero (s : gostring) (a : ascii) :
  ContainsRune s a = false → Count s a = 0.
Proof.
  rewrite ContainsRune_false. unfold Count. intros H.
  induction s as [|x s IH]; [done|]. apply not_elem_of_cons in H as [H1 H2].
  rewrite filter_cons_False by congruence. by apply IH.
Qed.

Lemma Split_cons_sep (s : gostring) (sep : ascii) :
  Split (sep :: s) sep = [] :: Split s sep.
Proof. cbn [Split]. by rewrite Ascii.eqb_refl. Qed.

Lemma Split_nonempty (s : gostring) (sep : ascii) : Split s sep ≠ [].
Proof.
  induction s as [|c s IH]; cbn; [done|].
  destruct (Ascii.eqb c sep); [done|]. by destruct (Split s sep).
Qed.

Lemma Split_cons_other (c : ascii) (s : gostring) (sep : ascii) :
  c ≠ sep →
  ∃ seg segs, Split s sep = seg :: segs ∧ Split (c :: s) sep = (c :: seg) :: segs.
Proof.
  intros Hne. cbn. rewrite (proj2 (ascii_eqb_false c sep) Hne).
  pose proof (Split_nonempty s sep). destruct (Split s sep) as [|seg segs]; [done|].
  by exists seg, segs.
Qed.

Lemma Count_cons (c a : ascii) (s : gostring) :
  Count (c :: s) a = (if Ascii.eqb c a then 1 else 0) + Count s a.
Proof.
  unfold Count. destruct (Ascii.eqb c a) eqn:E.
  - apply ascii_eqb_true in E. by rewrite filter_cons_True.
  - apply ascii_eqb_false in E. by rewrite filter_cons_False.
Qed.

Lemma ContainsRune_Count (s : gostring) (a : ascii) :
  ContainsRune s a = true ↔ 1 ≤ Count s a.
Proof.
  induction s as [|c s IH].
  - cbn. split; [done | lia].
  - rewrite Count_cons. cbn. rewrite (Ascii.eqb_sym a c).
    destruct (Ascii.eqb c a); cbn; [split; [lia | done] | done].
Qed.

(** The braces of a key are the braces of its segments. *)
Lemma Count_Split (s : gostring) (a : ascii) :
  a ≠ slash →
  Count s a = sum_list (map (λ seg, Count seg a) (Split s slash)).
Proof.
  intros Hne. induction s as [|c s IH]; [done|].
  rewrite Count_cons. destruct (decide (c = slash)) as [-> | Hc].
  - rewrite Split_cons_sep, (proj2 (ascii_eqb_false slash a)) by done.
    cbn [map sum_list]. by rewrite IH.
  - destruct (Split_cons_other c s slash Hc) as (seg & segs & Hs & ->).
    rewrite IH, Hs. cbn [map sum_list]. rewrite Count_cons. unfold id. lia.
Qed.

Lemma wildcards_length_le segs i :
  length (wildcards segs i) ≤ sum_list (map (λ seg, Count seg curlyStart) segs).
Proof.
  revert i. induction segs as [|el rest IH]; intros i; cbn; [done|].
  specialize (IH (S i)). destruct (ContainsRune el curlyStart) eqn:E; [|lia].
  apply ContainsRune_Count in E. cbn. lia.
Qed.

Lemma wildcards_length_eq segs i :
  Forall (λ el, Count el curlyStart ≤ 1) segs →
  length (wildcards segs i) = sum_list (map (λ seg, Count seg curlyStart) segs).
Proof.
  intros Hall. revert i. induction Hall as [|el rest Hel Hrest IH]; intros i; cbn; [done|].
  specialize (IH (S i)). destruct (ContainsRune el curlyStart) eqn:E.
  - apply ContainsRune_Count in E. cbn. lia.
  - apply Count_zero in E. lia.
Qed.

(** The loop writes the descriptors of the segments from [counter] on, and
    every write lands inside the slice. *)
Lemma getPathParams_loop_spec segs : ∀ i counter params,
  Forall (λ el, ContainsRune el curlyStart = true → 2 ≤ length el) segs →
  counter + length (wildcards segs i) ≤ length params →
  getPathParams_loop segs i counter params =
    take counter params ++ wildcards segs i
      ++ drop (counter + length (wildcards segs i)) params.
Proof.
  induction segs as [|el rest IH]; intros i counter params Hlen Hfit;
    cbn [getPathParams_loop wildcards] in *.
  - cbn. by rewrite Nat.add_0_r, take_drop.
  - apply Forall_cons in Hlen as [Hel Hrest].
    destruct (ContainsRune el curlyStart) eqn:E; cbn [negb].
    + cbn [length] in Hfit. specialize (Hel eq_refl).
      destruct (length el <? 2) eqn:El; [apply Nat.ltb_lt in El; lia|].
      rewrite IH; [|done | rewrite length_insert; lia].
      erewrite take_S_r by (apply list_lookup_insert_eq; lia).
      rewrite take_insert_ge by lia. rewrite drop_insert_lt by lia.
      cbn. rewrite <- app_assoc. cbn. by rewrite Nat.add_succ_r.
    + by apply IH.
Qed.

(** What [getPathParams] returns on any key whose brace-holding segments
    have at least two characters: the descriptors, then one zero value for
    every opening brace beyond the first of its segment. *)
Lemma getPathParams_spec (v : gostring) :
  Forall (λ el, ContainsRune el curlyStart = true → 2 ≤ length el) (Split v slash) →
  getPathParams v =
    wildcards (Split v slash) 0
    ++ replicate (Count v curlyStart - length (wildcards (Split v slash) 0))
                 zeroParamInfo.
Proof.
  intros Hlen. unfold getPathParams.
  pose proof (wildcards_length_le (Split v slash) 0) as Hle.
  rewrite <- Count_Split in Hle by done.
  rewrite getPathParams_loop_spec; [|done | by rewrite length_replicate].
  by rewrite take_0, drop_replicate.
Qed.

(** In a key that passes the brace scan, a segment that holds an opening
    brace holds its closing brace too. *)
Lemma checkPathParams_loop_segments url : ∀ st,
  checkPathParams_loop url st = None →
  Forall (λ el, ContainsRune el curlyStart = true → 2 ≤ length el) (Split url slash)
  ∧ (st = true → ∃ seg segs, Split url slash = seg :: segs ∧ seg ≠ []).
Proof.
  induction url as [|c url IH]; intros st.
  - cbn. destruct st; [done|]. intros _. split; [|done].
    constructor; [done | constructor].
  - rewrite checkPathParams_loop_cons.
    destruct (malformedAt st c) eqn:Ebad; [done|]. intros Hloop.
    destruct (IH _ Hloop) as [Hall Hfirst].
    destruct (decide (c = slash)) as [-> | Hc].
    + rewrite Split_cons_sep. split; [by constructor|]. intros ->. done.
    + destruct (Split_cons_other c url slash Hc) as (seg & segs & Hs & ->).
      rewrite Hs in Hall, Hfirst. apply Forall_cons in Hall as [Hseg Hsegs].
      split; [|by eauto]. constructor; [|done].
      rewrite ContainsRune_cons. cbn [length].
      destruct (Ascii.eqb c curlyStart) eqn:Ec; cbn [orb].
      * intros _. unfold malformedAt, scanStep in *. rewrite Ec in *.
        destruct st; [done|].
        destruct Hfirst as (seg' & segs' & [= <- <-] & Hne); [done|].
        destruct seg; [done | cbn; lia].
      * intros H. specialize (Hseg H). lia.
Qed.

Lemma checkUrl_segments (v : gostring) :
  checkUrl v = None →
  Forall (λ el, ContainsRune el curlyStart = true → 2 ≤ length el) (Split v slash).
Proof.
  unfold checkUrl. repeat case_match; try done.
  rewrite checkPathParams_loop_eq. by intros [Hsegs _]%checkPathParams_loop_segments.
Qed.

Lemma wildcards_elem segs : ∀ i j el,
  segs !! j = Some el → ContainsRune el curlyStart = true →
  mkParamInfo (stripEnds el) (uint8 (Z.of_nat (i + j))) ∈ wildcards segs i.
Proof.
  induction segs as [|a rest IH]; intros i j el Hj Hel; [done|].
  destruct j as [|j]; cbn in *.
  - simplify_eq. rewrite Hel, Nat.add_0_r. by left.
  - replace (i + S j) with (S i + j) by lia.
    destruct (ContainsRune a curlyStart); [right|]; by apply IH.
Qed.

Lemma wildcards_pos segs i p :
  p ∈ wildcards segs i → (0 ≤ pi_pos p < 256)%Z.
Proof.
  revert i. induction segs as [|a rest IH]; intros i; cbn; [by inversion 1|].
  destruct (ContainsRune a curlyStart); [|by apply IH].
  intros [-> | H]%elem_of_cons; [|by eapply IH]. cbn. unfold uint8.
  apply Z.mod_pos_bound. lia.
Qed.

(** ** Induction on nodes and the equations of the recursive functions *)

Section NodeFacts.

Context {T : Type}.
Implicit Types (n c : Node T) (chs : list (Node T)) (nv : NodeValue T).

Lemma Node_forall_ind (P : Node T → Prop) :
  (∀ k v chs, Forall P chs → P (mkNode k v chs)) → ∀ n, P n.
Proof.
  intros step. fix IH 1. intros [k v chs]. apply step.
  induction chs as [|c chs IHchs]; constructor; [apply IH | apply IHchs].
Qed.

Lemma insertRec_unfold k v chs key (value : NodeValue T) :
  insertRec (mkNode k v chs) key value =
    let n := mkNode k v chs in
    let lcp := longestCommonPrefix k key in
    if lcp =? 0 then (Some errNoCommonPrefix, n)
    else if (length k =? lcp) && (length key =? lcp) then
      if IsLeaf n then (Some errKeyIsAlreadyStored, n)
      else (None, mkNode k (Some value) chs)
    else if lcp <? length k then
      let cNewNode := createNewNode (drop lcp k) v chs in
      if bool_decide (drop lcp key = []) then
        (None, mkNode (take lcp k) (Some value) [cNewNode])
      else
        (None, mkNode (take lcp k) None
                 [cNewNode; createNewNode (drop lcp key) (Some value) []])
    else
      match iterateInsert chs (drop lcp key) value with
      | (None, chs') => (None, mkNode k v chs')
      | (Some e, chs') =>
          if negb (isNoCommonPrefix e) then (Some e, mkNode k v chs')
          else (None, addToChildren (mkNode k v chs')
                        (createNewNode (drop lcp key) (Some value) []))
      end.
Proof.
  assert (Hit : ∀ keyRem l,
    (fix iterate (l : list (Node T)) : option error * list (Node T) :=
       match l with
       | [] => (Some errNoCommonPrefix, [])
       | ch :: rest =>
           let '(insertErr, ch') := insertRec ch keyRem value in
           match insertErr with
           | None => (None, ch' :: rest)
           | Some e =>
               if negb (isNoCommonPrefix e) then (Some e, ch' :: rest)
               else let '(err, rest') := iterate rest in (err, ch' :: rest')
           end
       end) l = iterateInsert l keyRem value).
  { intros keyRem l. induction l as [|ch rest IHl]; [done|].
    cbn [iterateInsert]. by rewrite IHl. }
  cbn [insertRec]. cbv zeta. rewrite Hit.
  repeat (case_match; try done).
Qed.

Lemma findRec_unfold k v chs key isWildcard :
  findRec (mkNode k v chs : Node T) key isWildcard =
    let n := mkNode k v chs in
    let isWildcard := if ContainsRune k curlyStart then true else isWildcard in
    let lcp := longestCommonPrefix k key in
    if (lcp =? 0) && negb isWildcard then None
    else if negb isWildcard then
      if bool_decide (key = k) then Some n
      else if lcp <? length k then None
      else findFirst chs (drop lcp key) isWildcard
    else
      let '(offset1, offset2, isStillWildcard) :=
        getOffsets (drop lcp k) (drop lcp key) true in
      if negb (length (drop lcp k) =? offset1) then None
      else if bool_decide (drop offset2 (drop lcp key) = []) then
        if IsLeaf n then Some n else None
      else findFirst chs (drop offset2 (drop lcp key)) isStillWildcard.
Proof.
  assert (Hloop : ∀ key' w l,
    (fix loop (l : list (Node T)) : option (Node T) :=
       match l with
       | [] => None
       | c :: rest =>
           match findRec c key' w with
           | Some found => Some found
           | None => loop rest
           end
       end) l = findFirst l key' w).
  { intros key' w l. induction l as [|c rest IHl]; [done|].
    cbn [findFirst]. by rewrite IHl. }
  cbn [findRec]. cbv zeta.
  destruct (getOffsets _ _ true) as [[offset1 offset2] isStillWildcard].
  by rewrite !Hloop.
Qed.

Lemma findLongestMatchRec_unfold k v chs key :
  findLongestMatchRec (mkNode k v chs : Node T) key =
    let n := mkNode k v chs in
    let lcp := longestCommonPrefix k key in
    if lcp =? 0 then None
    else if negb (lcp =? length k) then None
    else match findLongestFirst chs (drop lcp key) with
         | Some node => Some node
         | None => if negb (IsLeaf n) then None else Some n
         end.
Proof.
  assert (Hloop : ∀ key' l,
    (fix loop (l : list (Node T)) : option (Node T) :=
       match l with
       | [] => None
       | ch :: rest =>
           match findLongestMatchRec ch key' with
           | Some node => Some node
           | None => loop rest
           end
       end) l = findLongestFirst l key').
  { intros key' l. induction l as [|c rest IHl]; [done|].
    cbn [findLongestFirst]. by rewrite IHl. }
  cbn [findLongestMatchRec]. cbv zeta. by rewrite Hloop.
Qed.

(** ** Failing insertions leave the node as it was *)

Lemma iterateInsert_failure chs :
  Forall failure_ok chs →
  ∀ key value e chs', iterateInsert chs key value = (Some e, chs') →
    chs' = chs ∧
    ((e = errNoCommonPrefix ∧
      Forall (λ c, longestCommonPrefix (n_key c) key = 0) chs) ∨
     e = errKeyIsAlreadyStored).
Proof.
  induction 1 as [|c chs Hc Hchs IH]; intros key value e chs'; cbn [iterateInsert].
  - intros [= <- <-]. auto.
  - destruct (insertRec c key value) as [[e1|] c1] eqn:Hins; [|done].
    destruct (Hc _ _ _ _ Hins) as [-> Hcase].
    destruct Hcase as [[-> Hlcp]|[-> Hlcp]]; cbn.
    + destruct (iterateInsert chs key value) as [err rest'] eqn:Hit.
      intros [= -> <-]. destruct (IH _ _ _ _ Hit) as [-> Hrest].
      split; [done|]. destruct Hrest as [[-> Hall]| ->]; auto.
    + intros [= <- <-]. auto.
Qed.

Lemma insertRec_failure n : failure_ok n.
Proof.
  induction n as [k v chs IH] using Node_forall_ind.
  intros key value e n'. rewrite insertRec_unfold. cbv zeta. cbn [n_key].
  destruct (longestCommonPrefix k key =? 0) eqn:E0.
  { apply Nat.eqb_eq in E0. intros [= <- <-]. auto. }
  apply Nat.eqb_neq in E0.
  destruct (_ && _).
  { destruct (IsLeaf _); intros [= <- <-]. auto. }
  destruct (_ <? _).
  { destruct (bool_decide _); done. }
  destruct (iterateInsert _ _ _) as [[e1|] chs1] eqn:Hit; [|done].
  destruct (iterateInsert_failure _ IH _ _ _ _ Hit) as [-> Hcase].
  destruct Hcase as [[-> _]| ->]; cbn; [done|].
  intros [= <- <-]. auto.
Qed.

(** ** Successful insertions keep the tree compressed and its keys stored *)

Lemma siblingsDistinct_NoDup chs : siblingsDistinct chs ↔ NoDup (heads chs).
Proof.
  unfold siblingsDistinct, heads. rewrite NoDup_alt. split.
  - intros H i j x Hi Hj. rewrite list_lookup_fmap in Hi, Hj.
    destruct (chs !! i) as [c1|] eqn:E1; [|done].
    destruct (chs !! j) as [c2|] eqn:E2; [|done].
    destruct (decide (i = j)) as [|Hne]; [done|].
    exfalso. apply (H i j c1 c2 Hne E1 E2). simpl in *. congruence.
  - intros H i j c1 c2 Hne E1 E2 Heq. apply Hne.
    apply (H i j (head (n_key c1))); rewrite list_lookup_fmap.
    + by rewrite E1.
    + rewrite E2. simpl. by rewrite Heq.
Qed.

Lemma Stored_prefix n k nv : Stored n k nv → ∃ r, k = n_key n ++ r.
Proof.
  destruct 1 as [k nv chs | k v chs c k' nv _ _]; cbn.
  - exists []. by rewrite app_nil_r.
  - by exists k'.
Qed.

Lemma Stored_eq n k k' nv : k' = k → Stored n k nv → Stored n k' nv.
Proof. by intros ->. Qed.

Lemma Stored_nonempty n k nv : compressed n → Stored n k nv → k ≠ [].
Proof.
  intros Hc Hs. destruct (Stored_prefix _ _ _ Hs) as [r ->].
  destruct Hc as [k0 v chs Hk _ _]. cbn. by destruct k0.
Qed.

Lemma iterateInsert_success chs key (value : NodeValue T) chs' :
  iterateInsert chs key value = (None, chs') →
  ∃ pre c c' post, chs = pre ++ c :: post ∧ chs' = pre ++ c' :: post ∧
    insertRec c key value = (None, c').
Proof.
  revert chs'. induction chs as [|c chs IH]; intros chs'; cbn [iterateInsert]; [done|].
  destruct (insertRec c key value) as [[e1|] c1] eqn:Hins.
  - destruct (insertRec_failure _ _ _ _ _ Hins) as [-> _].
    destruct (negb _); [done|].
    destruct (iterateInsert chs key value) as [err rest'] eqn:Hit.
    intros [= -> <-]. destruct (IH _ eq_refl) as (pre & c0 & c0' & post & -> & -> & H0).
    by exists (c :: pre), c0, c0', post.
  - intros [= <-]. by exists [], c, c1, chs.
Qed.

Lemma ContainsRune_take (s : gostring) (a : ascii) m :
  ContainsRune s a = false → ContainsRune (take m s) a = false.
Proof.
  rewrite !ContainsRune_false. intros H Hin. apply H.
  by apply (subseteq_take m s).
Qed.

Lemma ContainsRune_drop (s : gostring) (a : ascii) m :
  ContainsRune s a = false → ContainsRune (drop m s) a = false.
Proof.
  rewrite !ContainsRune_false. intros H Hin. apply H.
  by apply (subseteq_drop m s).
Qed.

Lemma insertRec_success n : success_ok n.
Proof.
  induction n as [k v chs IH] using Node_forall_ind.
  intros Hcomp key value n'. rewrite insertRec_unfold. cbv zeta.
  inversion Hcomp as [k0 v0 chs0 Hk Hsib Hall]; subst k0 v0 chs0.
  pose proof (lcp_le_l k key) as Hle1. pose proof (lcp_le_r k key) as Hle2.
  pose proof (lcp_take k key) as Htake.
  set (lcp := longestCommonPrefix k key) in *.
  destruct (lcp =? 0) eqn:E0; [done|]. apply Nat.eqb_neq in E0.
  assert (Hkey : key = take lcp k ++ drop lcp key) by (by rewrite Htake, take_drop).
  assert (Hhead : head (take lcp k) = head k) by (apply head_take_pos; lia).
  assert (Htk : take lcp k ≠ []).
  { intros E. apply (f_equal length) in E. rewrite length_take in E. simpl in E. lia. }
  destruct ((length k =? lcp) && (length key =? lcp)) eqn:Eexact.
  { (* the node is the destination *)
    apply andb_true_iff in Eexact as [E1 E2].
    apply Nat.eqb_eq in E1, E2.
    assert (key = k) as ->.
    { rewrite Hkey. rewrite drop_ge, app_nil_r by lia. apply take_ge. lia. }
    destruct (IsLeaf _) eqn:Eleaf; [done|]. intros [= <-].
    split_and!; [by constructor | done | constructor | | ].
    - intros k0 nv0 Hs. inversion Hs; subst; [done|]. by econstructor.
    - intros Hnw _. inversion Hnw; subst. by constructor. }
  destruct (lcp <? length k) eqn:Esplit.
  { (* split *)
    apply Nat.ltb_lt in Esplit.
    assert (Hdk : drop lcp k ≠ []).
    { intros E. apply (f_equal length) in E. rewrite length_drop in E. simpl in E. lia. }
    assert (HcNew : compressed (createNewNode (drop lcp k) v chs)) by (by constructor).
    assert (Hold : ∀ k0 nv0, Stored (mkNode k v chs) k0 nv0 →
              Stored (createNewNode (drop lcp k) v chs) (drop lcp k0) nv0
              ∧ k0 = take lcp k ++ drop lcp k0).
    { intros k0 nv0 Hs. inversion Hs; subst.
      - split; [constructor | by rewrite take_drop].
      - rewrite drop_app_le by lia. split; [by econstructor|].
        by rewrite app_assoc, take_drop. }
    assert (Hnwk : nowild (mkNode k v chs) → nowild (createNewNode (drop lcp k) v chs)
                   ∧ ContainsRune (take lcp k) curlyStart = false).
    { intros Hnw. inversion Hnw; subst. split; [constructor; [|done]|].
      - by apply ContainsRune_drop.
      - by apply ContainsRune_take. }
    destruct (bool_decide (drop lcp key = [])) eqn:Erem.
    - apply bool_decide_eq_true in Erem. intros [= <-].
      rewrite Erem, app_nil_r in Hkey.
      split_and!.
      + constructor; [done | | by constructor].
        apply siblingsDistinct_NoDup. cbn. apply NoDup_singleton.
      + done.
      + apply (Stored_eq _ _ _ _ Hkey). constructor.
      + intros k0 nv0 Hs. destruct (Hold _ _ Hs) as [Hs' ->].
        econstructor; [|done]. apply list_elem_of_singleton. done.
      + intros Hnw _. destruct (Hnwk Hnw) as [H1 H2].
        constructor; [done | by constructor].
    - apply bool_decide_eq_false in Erem. intros [= <-].
      split_and!.
      + constructor; [done | | ].
        * apply siblingsDistinct_NoDup. cbn. apply NoDup_cons. split; [|apply NoDup_singleton].
          rewrite list_elem_of_singleton. intros Heq.
          pose proof (lcp_drop k key) as Hz. apply lcp_zero in Hz.
          fold lcp in Hz. naive_solver.
        * constructor; [done|]. constructor; [|constructor].
          constructor; [done | | constructor].
          intros i j c1 c2 _ Hi. by rewrite lookup_nil in Hi.
      + done.
      + apply (Stored_eq _ _ _ _ Hkey). econstructor; [|constructor].
        apply elem_of_cons. right. by apply list_elem_of_singleton.
      + intros k0 nv0 Hs. destruct (Hold _ _ Hs) as [Hs' ->].
        econstructor; [|done]. apply elem_of_cons. by left.
      + intros Hnw Hkw. destruct (Hnwk Hnw) as [H1 H2].
        constructor; [done|]. constructor; [done|]. constructor; [|constructor].
        constructor; [by apply ContainsRune_drop | constructor]. }
  (* descent into the children *)
  apply Nat.ltb_ge in Esplit. assert (Hlen : lcp = length k) by lia.
  assert (Hfull : take lcp k = k) by (apply take_ge; lia).
  rewrite Hfull in Hkey.
  assert (Hrem : drop lcp key ≠ []).
  { intros E. apply (f_equal length) in E. rewrite length_drop in E. simpl in E.
    apply andb_false_iff in Eexact as [E1|E1]; apply Nat.eqb_neq in E1; lia. }
  destruct (iterateInsert chs (drop lcp key) value) as [[e1|] chs1] eqn:Hit.
  - (* no child shares a prefix: a new child is appended *)
    destruct (iterateInsert_failure _ (Forall_impl _ _ _ IH (λ c _, insertRec_failure c))
                _ _ _ _ Hit) as [-> Hcase].
    destruct Hcase as [[-> Hnone]| ->]; cbn; [|done].
    intros [= <-]. unfold addToChildren; cbn.
    split_and!.
    + constructor; [done | | ].
      * apply siblingsDistinct_NoDup. unfold heads. rewrite map_app. cbn.
        apply NoDup_app. split_and!; [by apply siblingsDistinct_NoDup | | apply NoDup_singleton].
        intros h Hin Hin'. apply list_elem_of_singleton in Hin'. subst h.
        apply list_elem_of_fmap in Hin as (c & Hh & Hc).
        rewrite Forall_forall in Hnone, Hall.
        specialize (Hnone _ Hc). specialize (Hall _ Hc).
        apply lcp_zero in Hnone. destruct Hall. cbn in *. naive_solver.
      * apply Forall_app. split; [done|]. constructor; [|constructor].
        constructor; [done | | constructor].
        intros i j c1 c2 _ Hi. by rewrite lookup_nil in Hi.
    + done.
    + apply (Stored_eq _ _ _ _ Hkey). econstructor; [|constructor].
      apply elem_of_app. right. by apply list_elem_of_singleton.
    + intros k0 nv0 Hs. inversion Hs; subst; [constructor|].
      econstructor; [|done]. apply elem_of_app. by left.
    + intros Hnw Hkw. inversion Hnw; subst. constructor; [done|].
      apply Forall_app. split; [done|]. constructor; [|constructor].
      constructor; [by apply ContainsRune_drop | constructor].
  - (* one child took the key *)
    intros [= <-].
    destruct (iterateInsert_success _ _ _ _ Hit) as (pre & c & c' & post & -> & -> & Hins).
    apply Forall_app in IH as [_ IH]. apply Forall_cons in IH as [IHc _].
    pose proof Hall as Hall'.
    apply Forall_app in Hall' as [Hpre Hall']. apply Forall_cons in Hall' as [Hc Hpost].
    destruct (IHc Hc _ _ _ Hins) as (Hc' & Hh & Hs' & Hkeep & Hnw').
    split_and!.
    + constructor; [done | | ].
      * apply siblingsDistinct_NoDup. apply siblingsDistinct_NoDup in Hsib.
        unfold heads in *. rewrite map_app in *. cbn in *. by rewrite Hh.
      * apply Forall_app. split; [done|]. by constructor.
    + done.
    + apply (Stored_eq _ _ _ _ Hkey). econstructor; [|done].
      apply elem_of_app. right. by left.
    + intros k0 nv0 Hs. inversion Hs as [|? ? ? c0 ? ? Hin Hs0]; subst; [constructor|].
      apply elem_of_app in Hin as [Hin|Hin].
      * econstructor; [|done]. apply elem_of_app. by left.
      * apply elem_of_cons in Hin as [-> |Hin].
        -- econstructor; [|by apply Hkeep]. apply elem_of_app. right. by left.
        -- econstructor; [|done]. apply elem_of_app. right. by right.
    + intros Hnw Hkw. inversion Hnw as [? ? ? Hk0 Hch]; subst. constructor; [done|].
      apply Forall_app in Hch as [Hch1 Hch2]. apply Forall_cons in Hch2 as [Hch2 Hch3].
      apply Forall_app. split; [done|]. constructor; [|done].
      apply Hnw'; [done|]. by apply ContainsRune_drop.
Qed.

(** ** Re-inserting a stored key, and finding it *)

Lemma siblings_cases chs c c' :
  siblingsDistinct chs → c ∈ chs → c' ∈ chs →
  c' = c ∨ head (n_key c') ≠ head (n_key c).
Proof.
  intros Hsib [i Hi]%list_elem_of_lookup [j Hj]%list_elem_of_lookup.
  destruct (decide (j = i)) as [-> | Hne]; [left; congruence|].
  right. by apply (Hsib j i).
Qed.

Lemma insertRec_no_prefix n key (value : NodeValue T) :
  longestCommonPrefix (n_key n) key = 0 →
  insertRec n key value = (Some errNoCommonPrefix, n).
Proof. destruct n as [k v chs]. rewrite insertRec_unfold. cbn. by intros ->. Qed.

Lemma iterateInsert_dup chs c key (value : NodeValue T) :
  c ∈ chs →
  (∀ c', c' ∈ chs → c' = c ∨ longestCommonPrefix (n_key c') key = 0) →
  insertRec c key value = (Some errKeyIsAlreadyStored, c) →
  iterateInsert chs key value = (Some errKeyIsAlreadyStored, chs).
Proof.
  intros Hin Hothers Hc. induction chs as [|a chs IH]; [by inversion Hin|].
  cbn [iterateInsert].
  destruct (Hothers a) as [-> | Hz]; [by left | by rewrite Hc |].
  rewrite (insertRec_no_prefix _ _ _ Hz). cbn.
  apply elem_of_cons in Hin as [-> | Hin].
  { rewrite (insertRec_no_prefix _ _ _ Hz) in Hc. done. }
  rewrite IH; [done | done |]. intros c' Hc'. apply Hothers. by right.
Qed.

Lemma insertRec_stored n k nv0 (nv : NodeValue T) :
  compressed n → Stored n k nv0 →
  insertRec n k nv = (Some errKeyIsAlreadyStored, n).
Proof.
  intros Hcomp Hs. revert Hcomp.
  induction Hs as [k nv0 chs | k v chs c k' nv0 Hin Hs IH]; intros Hcomp;
    rewrite insertRec_unfold; cbv zeta;
    inversion Hcomp as [? ? ? Hk Hsib Hall]; subst.
  - rewrite lcp_refl. destruct k; [done|]. cbn. by rewrite Nat.eqb_refl.
  - rewrite Forall_forall in Hall.
    pose proof (Stored_nonempty _ _ _ (Hall _ Hin) Hs) as Hk'.
    rewrite lcp_app, drop_app_length.
    replace (length k =? 0) with false by (destruct k; done).
    rewrite Nat.eqb_refl, Nat.ltb_irrefl. cbn.
    replace (length (k ++ k') =? length k) with false.
    2:{ symmetry. apply Nat.eqb_neq. rewrite length_app. destruct k'; [done|]. cbn. lia. }
    rewrite (iterateInsert_dup chs c); [done | done | | by apply IH, Hall].
    intros c' Hc'. destruct (siblings_cases _ _ _ Hsib Hin Hc') as [-> | Hne]; [by left|].
    right. apply lcp_zero. right. right.
    destruct (Stored_prefix _ _ _ Hs) as [r ->].
    pose proof (Hall _ Hin) as Hcc. destruct Hcc as [kc ? ? Hkc _ _]. cbn in *.
    destruct kc; [done|]. done.
Qed.

Lemma findRec_no_prefix n key :
  nowild n → longestCommonPrefix (n_key n) key = 0 → findRec n key false = None.
Proof.
  destruct n as [k v chs]. inversion 1; subst. rewrite findRec_unfold.
  cbn. intros ->. by rewrite H2.
Qed.

Lemma findFirst_unique chs c key m :
  c ∈ chs →
  (∀ c', c' ∈ chs → c' = c ∨ findRec c' key false = None) →
  findRec c key false = Some m →
  findFirst chs key false = Some m.
Proof.
  intros Hin Hothers Hc. induction chs as [|a chs IH]; [by inversion Hin|].
  cbn [findFirst].
  destruct (Hothers a) as [-> | Hz]; [by left | by rewrite Hc |].
  rewrite Hz. apply elem_of_cons in Hin as [-> | Hin]; [congruence|].
  apply IH; [done|]. intros c' Hc'. apply Hothers. by right.
Qed.

Lemma findRec_stored n k nv :
  compressed n → nowild n → Stored n k nv →
  ∃ m, findRec n k false = Some m ∧ n_value m = Some nv.
Proof.
  intros Hcomp Hnw Hs. revert Hcomp Hnw.
  induction Hs as [k nv chs | k v chs c k' nv Hin Hs IH]; intros Hcomp Hnw;
    rewrite findRec_unfold; cbv zeta;
    inversion Hcomp as [? ? ? Hk Hsib Hall]; subst;
    inversion Hnw as [? ? ? Hkw Hallw]; subst; rewrite Hkw.
  - rewrite lcp_refl. destruct k; [done|]. cbn.
    rewrite bool_decide_eq_true_2 by done. eauto.
  - rewrite Forall_forall in Hall, Hallw.
    pose proof (Stored_nonempty _ _ _ (Hall _ Hin) Hs) as Hk'.
    rewrite lcp_app, drop_app_length.
    replace (length k =? 0) with false by (destruct k; done).
    rewrite Nat.ltb_irrefl. cbn.
    rewrite bool_decide_eq_false_2.
    2:{ intros E. apply (f_equal length) in E. rewrite length_app in E.
        destruct k'; [done|]. cbn in E. lia. }
    destruct (IH (Hall _ Hin) (Hallw _ Hin)) as (m & Hm & Hv).
    exists m. split; [|done].
    apply (findFirst_unique chs c); [done | | done].
    intros c' Hc'. destruct (siblings_cases _ _ _ Hsib Hin Hc') as [-> | Hne]; [by left|].
    right. apply findRec_no_prefix; [by apply Hallw|].
    apply lcp_zero. right. right.
    destruct (Stored_prefix _ _ _ Hs) as [r ->].
    pose proof (Hall _ Hin) as Hcc. destruct Hcc as [kc ? ? Hkc _ _]. cbn in *.
    destruct kc; [done|]. done.
Qed.

(** ** The longest-prefix descent *)

Lemma Reaches_prefix n key d m :
  Reaches n key d m →
  longestCommonPrefix (n_key n) key = length (n_key n) ∧
  longestCommonPrefix (n_key n) key ≠ 0.
Proof. by destruct 1. Qed.

Lemma findLongestFirst_Some chs key m :
  findLongestFirst chs key = Some m →
  ∃ c, c ∈ chs ∧ findLongestMatchRec c key = Some m.
Proof.
  induction chs as [|a chs IH]; cbn [findLongestFirst]; [done|].
  destruct (findLongestMatchRec a key) as [m'|] eqn:Ha.
  - intros [= ->]. exists a. split; [by left | done].
  - intros (c & Hc & Hm)%IH. exists c. split; [by right | done].
Qed.

Lemma findLongestFirst_None chs key :
  findLongestFirst chs key = None →
  ∀ c, c ∈ chs → findLongestMatchRec c key = None.
Proof.
  induction chs as [|a chs IH]; cbn [findLongestFirst]; [by inversion 2|].
  destruct (findLongestMatchRec a key) as [m'|] eqn:Ha; [done|].
  intros H c [-> | Hc]%elem_of_cons; [done | by apply IH].
Qed.

Lemma findLongestMatchRec_deepest n : deepest_ok n.
Proof.
  induction n as [k v chs IH] using Node_forall_ind.
  intros Hcomp key. rewrite findLongestMatchRec_unfold. cbv zeta.
  inversion Hcomp as [? ? ? Hk Hsib Hall]; subst.
  rewrite Forall_forall in IH, Hall.
  destruct (longestCommonPrefix k key =? 0) eqn:E0.
  { apply Nat.eqb_eq in E0. intros d' m' [_ H]%Reaches_prefix. done. }
  apply Nat.eqb_neq in E0.
  destruct (longestCommonPrefix k key =? length k) eqn:E1; cbn [negb].
  2:{ apply Nat.eqb_neq in E1. intros d' m' [H _]%Reaches_prefix. done. }
  apply Nat.eqb_eq in E1. rewrite E1.
  (* at most one child shares a prefix with the remaining key *)
  assert (Huniq : ∀ c c' d d' m m', c ∈ chs → c' ∈ chs →
            Reaches c (drop (length k) key) d m →
            Reaches c' (drop (length k) key) d' m' → c' = c).
  { intros c c' d d' m m' Hc Hc' [_ H1]%Reaches_prefix [_ H2]%Reaches_prefix.
    destruct (siblings_cases _ _ _ Hsib Hc Hc') as [-> | Hne]; [done|].
    apply lcp_heads in H1 as [H1 _]. apply lcp_heads in H2 as [H2 _]. congruence. }
  destruct (findLongestFirst chs (drop (length k) key)) as [m|] eqn:Hfirst.
  - apply findLongestFirst_Some in Hfirst as (c & Hc & Hm).
    pose proof (IH c Hc (Hall c Hc) (drop (length k) key)) as Hdeep.
    rewrite Hm in Hdeep. destruct Hdeep as (Hleaf & d & Hreach & Hmax).
    split; [done|]. exists (S d). split; [by econstructor|].
    intros d' m' Hr Hl. inversion Hr as [|? ? c' d'' ? ? ? Hc' Hr']; subst; [lia|].
    cbn in *. rewrite (Huniq c c' _ _ _ _ Hc Hc' Hreach Hr') in Hr'.
    specialize (Hmax _ _ Hr' Hl). lia.
  - pose proof (findLongestFirst_None _ _ Hfirst) as Hnone.
    assert (Hsub : ∀ c d' m', c ∈ chs →
              Reaches c (drop (length k) key) d' m' → IsLeaf m' = false).
    { intros c d' m' Hc Hr. pose proof (IH c Hc (Hall c Hc) (drop (length k) key)) as Hdeep.
      rewrite (Hnone c Hc) in Hdeep. by eapply Hdeep. }
    destruct (IsLeaf (mkNode k v chs)) eqn:Eleaf; cbn [negb].
    + split; [done|]. exists 0. split; [by constructor|].
      intros d' m' Hr Hl. inversion Hr as [|? ? c' d'' ? ? ? Hc' Hr']; subst; [lia|].
      cbn in *. rewrite (Hsub _ _ _ Hc' Hr') in Hl. done.
    + intros d' m' Hr. inversion Hr as [|? ? c' d'' ? ? ? Hc' Hr']; subst; [done|].
      cbn in *. by eapply Hsub.
Qed.

(** ** Insert on trees *)

Lemma getPathParams_loop_nil segs i counter :
  getPathParams_loop segs i counter [] = [].
Proof.
  revert i counter. induction segs as [|el rest IH]; intros i counter; cbn; [done|].
  repeat case_match; apply IH.
Qed.

Lemma getPathParams_nowild (k : gostring) :
  ContainsRune k curlyStart = false → getPathParams k = [].
Proof.
  intros H. unfold getPathParams. rewrite (Count_zero _ _ H). cbn.
  apply getPathParams_loop_nil.
Qed.

Lemma checkUrl_head (k : gostring) : checkUrl k = None → head k = Some slash.
Proof.
  unfold checkUrl. destruct (bool_decide (head k = Some slash)) eqn:E; [|done].
  by apply bool_decide_eq_true in E.
Qed.

Lemma Insert_failure (t t' : option (Tree T)) k v e :
  Insert t k v = (Some e, t') → t' = t.
Proof.
  unfold Insert. destruct t as [[rt]|]; [|by intros [= _ <-]].
  destruct (bool_decide (k = [])); [by intros [= _ <-]|].
  destruct (checkUrl k); [by intros [= _ <-]|].
  destruct rt as [r|]; cbn; [|done].
  destruct (insertRec r k _) as [err r'] eqn:Hins. intros [= -> <-].
  by destruct (insertRec_failure _ _ _ _ _ Hins) as [-> _].
Qed.

(** The error of [Insert] on a non-empty key: the validator's, if it has
    one, and otherwise what [insertRec] reports. *)
Lemma Insert_error (tr : Tree T) key v :
  key ≠ [] →
  match checkUrl key with
  | Some e => (Insert (Some tr) key v).1 = Some e
  | None => (Insert (Some tr) key v).1 = None
            ∨ (Insert (Some tr) key v).1 = Some errKeyIsAlreadyStored
            ∨ (Insert (Some tr) key v).1 = Some errNoCommonPrefix
  end.
Proof.
  intros Hne. unfold Insert. rewrite (bool_decide_eq_false_2 _ Hne).
  destruct (checkUrl key) as [e|]; [done|].
  destruct (root tr) as [r|]; [|by left].
  destruct (insertRec r key _) as [[e|] r'] eqn:Hins; [|by left].
  destruct (insertRec_failure _ _ _ _ _ Hins) as [_ [[-> _]|[-> _]]]; auto.
Qed.

Lemma Insert_success (tr : Tree T) t' k v :
  treeCompressed tr →
  Insert (Some tr) k v = (None, t') →
  k ≠ [] ∧ checkUrl k = None ∧
  ∃ tr', t' = Some tr' ∧ treeCompressed tr' ∧ (rootSlash tr → rootSlash tr') ∧
    treeStored tr' k (createNewNodeValue v (getPathParams k)) ∧
    (∀ k0 nv0, treeStored tr k0 nv0 → treeStored tr' k0 nv0) ∧
    (treeNowild tr → ContainsRune k curlyStart = false → treeNowild tr').
Proof.
  intros Hcomp. unfold Insert.
  destruct (bool_decide (k = [])) eqn:Ek; [done|]. apply bool_decide_eq_false in Ek.
  destruct (checkUrl k) eqn:Eurl; [done|].
  intros H. split; [done|]. split; [done|]. revert H.
  destruct tr as [[r|]]; cbn.
  - destruct (insertRec r k _) as [err r'] eqn:Hins. intros [= -> <-].
    destruct (insertRec_success r (Hcomp _ eq_refl) _ _ _ Hins)
      as (Hc' & Hh & Hs' & Hkeep & Hnw').
    eexists. split; [done|]. split_and!.
    + by intros ? [= <-].
    + intros Hslash ? [= <-]. rewrite Hh. by apply Hslash.
    + by eexists.
    + intros k0 nv0 (r0 & [= <-] & Hs). eexists. split; [done|]. by apply Hkeep.
    + intros Hnw Hk ? [= <-]. apply Hnw'; [|done]. by apply Hnw.
  - intros [= <-]. eexists. split; [done|]. split_and!.
    + intros ? [= <-]. constructor; [done | | constructor].
      intros i j c1 c2 _ Hi. by rewrite lookup_nil in Hi.
    + intros _ ? [= <-]. by apply checkUrl_head.
    + eexists. split; [done|]. constructor.
    + by intros k0 nv0 (r0 & [= ] & _).
    + intros _ Hk ? [= <-]. constructor; [done | constructor].
Qed.

Lemma Insert_stored (tr : Tree T) k nv0 v :
  treeCompressed tr → treeStored tr k nv0 → checkUrl k = None →
  Insert (Some tr) k v = (Some errKeyIsAlreadyStored, Some tr).
Proof.
  intros Hcomp (r & Hr & Hs) Hurl. unfold Insert.
  rewrite bool_decide_eq_false_2 by (by eapply Stored_nonempty; [apply Hcomp|]).
  rewrite Hurl, Hr. rewrite (insertRec_stored _ _ _ _ (Hcomp _ Hr) Hs).
  destruct tr; cbn in *. by subst.
Qed.

(** What a run of successful inserts establishes, starting from a tree that
    is compressed and rooted at a slash. *)
Lemma insertAll_success kvs : ∀ (tr : Tree T) t',
  treeCompressed tr → rootSlash tr →
  insertAll kvs (Some tr) = (None, t') →
  ∃ tr', t' = Some tr' ∧ treeCompressed tr' ∧ rootSlash tr' ∧
    (∀ k v, (k, v) ∈ kvs →
       checkUrl k = None ∧
       treeStored tr' k (createNewNodeValue v (getPathParams k))) ∧
    (∀ k0 nv0, treeStored tr k0 nv0 → treeStored tr' k0 nv0) ∧
    (treeNowild tr → Forall (λ kv, ContainsRune kv.1 curlyStart = false) kvs →
     treeNowild tr').
Proof.
  induction kvs as [|[k v] kvs IH]; intros tr t' Hcomp Hslash; cbn [insertAll].
  - intros [= <-]. exists tr. split_and!; try done.
    intros k v Hin. by inversion Hin.
  - destruct (Insert (Some tr) k v) as [[e|] t1] eqn:Hins; [done|].
    destruct (Insert_success _ _ _ _ Hcomp Hins)
      as (Hk & Hurl & tr1 & -> & Hc1 & Hs1 & Hst1 & Hkeep1 & Hnw1).
    intros Hall. destruct (IH _ _ Hc1 (Hs1 Hslash) Hall)
      as (tr' & -> & Hc' & Hs' & Hst' & Hkeep' & Hnw').
    exists tr'. split_and!; try done.
    + intros k0 v0 [[= -> ->] | Hin]%elem_of_cons; [|by apply Hst'].
      split; [done|]. by apply Hkeep'.
    + intros k0 nv0 H0. by apply Hkeep', Hkeep1.
    + intros Hnw Hkvs. apply Forall_cons in Hkvs as [Hk0 Hkvs].
      apply Hnw'; [|done]. by apply Hnw1.
Qed.

Lemma New_compressed : treeCompressed (New : Tree T).
Proof. by intros r. Qed.

Lemma New_rootSlash : rootSlash (New : Tree T).
Proof. by intros r. Qed.

Lemma New_nowild : treeNowild (New : Tree T).
Proof. by intros r. Qed.

End NodeFacts.

(** ** Static keys and the wildcard keys registered before them *)

Section WildcardsBefore.

Context {T : Type}.
Implicit Types (n c : Node T) (chs : list (Node T)) (nv : NodeValue T).
Implicit Types (W : list gostring) (p : gostring).






(** *** The predicates *)










(** *** Lookups *)





(** *** Inserts before the static key *)



(** *** Inserts after the static key *)




(** *** The same on a tree *)








End WildcardsBefore.

(** * The claims *)

(** ** Static keys (C1) *)


(** The static key is lost in the same way where it parts from the
    wildcard key at a literal character: in wildcard mode the scan passes
    the literal characters of a fragment, up to the closing brace, without
    comparing them.  After inserting [/abc/{id}] with value 1 and [/axx]
    with value 2, [Find "/axx"] answers with value 1; after [/users/{id}]
    and [/foo], [Find "/foo"] does.  A wildcard key that parts from the
    static key at its wildcard and does not match it does no harm: after
    [/api/{resource}/get] and [/api/products/get-all], the static key is
    found. *)
Lemma Find_static_skipped_literals :
  insertAll [(str "/abc/{id}", 1); (str "/axx", 2)] (Some New)
    = (None, Some (mkTree (Some
        (mkNode (str "/a") None
           [mkNode (str "bc/{id}")
              (Some (mkNodeValue 1 [mkParamInfo (str "id") 2])) [];
            mkNode (str "xx") (Some (mkNodeValue 2 [])) []])))) ∧
  Find (insertAll [(str "/abc/{id}", 1); (str "/axx", 2)] (Some New)).2
       (str "/axx")
    = Some (mkFoundNode 1 ∅) ∧
  shadows (str "/abc/{id}") (str "/axx") = true ∧
  (insertAll [(str "/users/{id}", 1); (str "/foo", 2)] (Some New)).1 = None ∧
  Find (insertAll [(str "/users/{id}", 1); (str "/foo", 2)] (Some New)).2
       (str "/foo")
    = Some (mkFoundNode 1 ∅) ∧
  shadows (str "/users/{id}") (str "/foo") = true ∧
  (insertAll [(str "/api/{resource}/get", 1);
              (str "/api/products/get-all", 2)] (Some New)).1 = None ∧
  Find (insertAll [(str "/api/{resource}/get", 1);
                   (str "/api/products/get-all", 2)] (Some New)).2
       (str "/api/products/get-all")
    = Some (mkFoundNode 2 ∅) ∧
  shadows (str "/api/{resource}/get") (str "/api/products/get-all") = false.
Proof. split_and!; by vm_compute. Qed.



(** ** Worked lookups (C2, C3) and the offset scanner (C7) *)

(** C2: after inserting [/api/{resource}/get/{id}],
    [/api/{resource}/delete/{id}] and [/api/{resource}/update/{id}] in that
    order into an empty tree, each with its own value,
    [Find "/api/products/delete/1"] returns the value of the delete route
    with the parameter map resource = products, id = 1, and
    [Find "/api/products/insert/1"] returns absence. *)
Theorem Find_multi_param {T} (vget vdelete vupdate : T) :
  ∃ t,
    insertAll [(str "/api/{resource}/get/{id}", vget);
               (str "/api/{resource}/delete/{id}", vdelete);
               (str "/api/{resource}/update/{id}", vupdate)] (Some New)
      = (None, t) ∧
    Find t (str "/api/products/delete/1")
      = Some (mkFoundNode vdelete
                {[ str "resource" := str "products"; str "id" := str "1" ]}) ∧
    Find t (str "/api/products/insert/1") = None.
Proof.
  eexists. split; [reflexivity|]. split; by vm_compute.
Qed.

(** C3: after inserting the single key [/foo/{id}/baz] with value [v] into
    an empty tree, [Find "/foo/5/baz"] returns [v] with the parameter map
    id = 5. *)
Theorem Find_single_param {T} (v : T) :
  ∃ t,
    Insert (Some New) (str "/foo/{id}/baz") v = (None, t) ∧
    Find t (str "/foo/5/baz")
      = Some (mkFoundNode v {[ str "id" := str "5" ]}).
Proof.
  eexists. split; [reflexivity|]. by vm_compute.
Qed.

(** C7: the offset scanner returns (3, 0, true) for the fragment [foo], the
    search rest [bar] and wildcard mode on, and (9, 6, false) for the
    fragment [/foo/{id}], the search rest [/foo/5/6] and wildcard mode
    off. *)
Theorem getOffsets_examples :
  getOffsets (str "foo") (str "bar") true = (3, 0, true) ∧
  getOffsets (str "/foo/{id}") (str "/foo/5/6") false = (9, 6, false).
Proof. split; reflexivity. Qed.

(** ** Failing inserts (C4) *)

(** C4: a second [Insert] of a key that was stored by a successful insert
    fails with the key-already-stored error, and every failing [Insert]
    (validation failures and the nil tree included) leaves the tree as it
    was, so that [Find], [FindLongestMatch], [GetAllLeaf] and
    [GetByPredicate] answer as before the attempt. *)
Theorem Insert_all_or_nothing {T} :
  (∀ (kvs : list (gostring * T)) t k v v',
     insertAll kvs (Some New) = (None, t) → (k, v) ∈ kvs →
     Insert t k v' = (Some errKeyIsAlreadyStored, t)) ∧
  (∀ (t t' : option (Tree T)) k v e,
     Insert t k v = (Some e, t') →
     t' = t ∧
     (∀ key, Find t' key = Find t key) ∧
     (∀ key, FindLongestMatch t' key = FindLongestMatch t key) ∧
     GetAllLeaf t' = GetAllLeaf t ∧
     (∀ fn, GetByPredicate t' fn = GetByPredicate t fn)).
Proof.
  split.
  - intros kvs t k v v' Hall Hin.
    destruct (insertAll_success kvs New t New_compressed New_rootSlash Hall)
      as (tr & -> & Hcomp & _ & Hst & _ & _).
    destruct (Hst _ _ Hin) as [Hurl Hs].
    by apply (Insert_stored tr k _ v' Hcomp Hs).
  - intros t t' k v e Hins. by rewrite (Insert_failure _ _ _ _ _ Hins).
Qed.

Lemma Insert_all_or_nothing_witness :
  insertAll [(str "/foo/bar", 1); (str "/foo/{id}", 2); (str "/foo", 3)] (Some New)
    = (None, Some (mkTree (Some
        (mkNode (str "/foo") (Some (mkNodeValue 3 []))
           [mkNode (str "/") None
              [mkNode (str "bar") (Some (mkNodeValue 1 [])) [];
               mkNode (str "{id}")
                 (Some (mkNodeValue 2 [mkParamInfo (str "id") 2])) []]])))) ∧
  Insert (insertAll [(str "/foo/bar", 1); (str "/foo/{id}", 2); (str "/foo", 3)]
            (Some New)).2 (str "/foo/{id}") 7
    = (Some errKeyIsAlreadyStored,
       (insertAll [(str "/foo/bar", 1); (str "/foo/{id}", 2); (str "/foo", 3)]
            (Some New)).2) ∧
  Insert (Some (mkTree (Some (mkNode (str "/foo") (Some (mkNodeValue 3 [])) []))))
         (str "/foo/") 4
    = (Some errPresentSlashSuffix,
       Some (mkTree (Some (mkNode (str "/foo") (Some (mkNodeValue 3 [])) [])))) ∧
  GetAllLeaf (Insert (Some (mkTree (Some (mkNode (str "/foo") (Some (mkNodeValue 3 [])) []))))
                (str "/foo/") 4).2
    = GetAllLeaf (Some (mkTree (Some (mkNode (str "/foo") (Some (mkNodeValue 3 [])) [])))).
Proof.
  split; [reflexivity|]. split; [|split; [reflexivity|]].
  - apply (proj1 Insert_all_or_nothing
             [(str "/foo/bar", 1); (str "/foo/{id}", 2); (str "/foo", 3)]
             _ (str "/foo/{id}") 2 7).
    + reflexivity.
    + right. left.
  - apply (proj2 Insert_all_or_nothing
             (Some (mkTree (Some (mkNode (str "/foo") (Some (mkNodeValue 3 [])) []))))
             _ (str "/foo/") 4 errPresentSlashSuffix).
    reflexivity.
Defined.

(** ** The tree stays compressed (C9) *)

(** C9: after any sequence of successful inserts into the empty tree, the
    fragments of two different children of one parent never start with the
    same character (and no fragment is empty); every [Insert] into a tree
    with this property, whether it succeeds (the split case included) or
    fails, leaves a tree with this property. *)
Theorem Insert_keeps_compressed {T} :
  (∀ (kvs : list (gostring * T)) tr,
     insertAll kvs (Some New) = (None, Some tr) → treeCompressed tr) ∧
  (∀ (tr tr' : Tree T) k v e,
     treeCompressed tr → Insert (Some tr) k v = (e, Some tr') →
     treeCompressed tr').
Proof.
  split.
  - intros kvs tr Hall.
    destruct (insertAll_success kvs New _ New_compressed New_rootSlash Hall)
      as (tr' & [= <-] & Hcomp & _).
    done.
  - intros tr tr' k v [e|] Hcomp Hins.
    + by apply Insert_failure in Hins as [= ->].
    + destruct (Insert_success _ _ _ _ Hcomp Hins)
        as (_ & _ & tr1 & [= <-] & Hc1 & _).
      done.
Qed.

Lemma Insert_keeps_compressed_witness :
  insertAll [(str "/foo/bar", 1); (str "/foo/baz", 2)] (Some New)
    = (None, Some (mkTree (Some
        (mkNode (str "/foo/ba") None
           [mkNode (str "r") (Some (mkNodeValue 1 [])) [];
            mkNode (str "z") (Some (mkNodeValue 2 [])) []])))) ∧
  Insert (Some (mkTree (Some
        (mkNode (str "/foo/ba") None
           [mkNode (str "r") (Some (mkNodeValue 1 [])) [];
            mkNode (str "z") (Some (mkNodeValue 2 [])) []]))))
      (str "/fo") 3
    = (None, Some (mkTree (Some
        (mkNode (str "/fo") (Some (mkNodeValue 3 []))
           [mkNode (str "o/ba") None
              [mkNode (str "r") (Some (mkNodeValue 1 [])) [];
               mkNode (str "z") (Some (mkNodeValue 2 [])) []]])))) ∧
  treeCompressed (mkTree (Some
        (mkNode (str "/fo") (Some (mkNodeValue 3 []))
           [mkNode (str "o/ba") None
              [mkNode (str "r") (Some (mkNodeValue 1 [])) [];
               mkNode (str "z") (Some (mkNodeValue 2 [])) []]]))).
Proof.
  split; [reflexivity|]. split; [reflexivity|].
  apply (proj2 Insert_keeps_compressed
           (mkTree (Some
              (mkNode (str "/foo/ba") None
                 [mkNode (str "r") (Some (mkNodeValue 1 [])) [];
                  mkNode (str "z") (Some (mkNodeValue 2 [])) []])))
           _ (str "/fo") 3 None).
  - apply (proj1 Insert_keeps_compressed
             [(str "/foo/bar", 1); (str "/foo/baz", 2)]).
    reflexivity.
  - reflexivity.
Defined.

(** ** Validation (C5) *)

(** C5: on a non-nil tree, [Insert] fails with the empty-key error exactly
    when the key is empty; otherwise with the missing-leading-slash error
    exactly when the first character is not a slash; otherwise with the
    trailing-slash error exactly when the key ends with a slash and is not
    the key ["/"]; otherwise with the malformed-wildcard error exactly when
    a left-to-right scan meets an opening brace inside a wildcard segment, a
    closing brace outside one, a slash inside one, or ends inside one; a key
    that passes all four checks passes validation, and [Insert] then
    succeeds or reports a stored key (or, on a root that shares no prefix
    with the key, the no-common-prefix signal). *)
Theorem Insert_validation {T} (tr : Tree T) (key : gostring) (v : T) :
  let err := (Insert (Some tr) key v).1 in
  let trailing := last key = Some slash ∧ key ≠ [slash] in
  (err = Some errKeyIsEmpty ↔ key = []) ∧
  (key ≠ [] →
     (err = Some errMissingSlashPrefix ↔ head key ≠ Some slash) ∧
     (head key = Some slash →
        (err = Some errPresentSlashSuffix ↔ trailing) ∧
        (¬ trailing →
           (err = Some errBadPathParamSyntax ↔ malformedWildcard key) ∧
           (¬ malformedWildcard key →
              checkUrl key = None ∧
              (err = None ∨ err = Some errKeyIsAlreadyStored
               ∨ err = Some errNoCommonPrefix))))).
Proof.
  cbv zeta. destruct (decide (key = [])) as [-> | Hne].
  { split; [done|]. by intros []. }
  pose proof (Insert_error tr key v Hne) as Herr.
  set (err := (Insert (Some tr) key v).1) in *. clearbody err.
  pose proof (checkPathParams_spec key) as [Hbad Hgood].
  pose proof (checkPathParams_errors key) as Honly.
  unfold checkUrl in *.
  destruct (bool_decide (head key = Some slash)) eqn:Ehead; cbn [negb] in *.
  2:{ apply bool_decide_eq_false in Ehead. subst err. naive_solver. }
  apply bool_decide_eq_true in Ehead.
  destruct (bool_decide (last key = Some slash) && _) eqn:Et.
  { apply andb_true_iff in Et as [Et1 Et2].
    apply bool_decide_eq_true in Et1.
    apply negb_true_iff, bool_decide_eq_false in Et2.
    subst err. naive_solver. }
  assert (Hnt : ¬ (last key = Some slash ∧ key ≠ [slash])).
  { intros [H1 H2]. apply andb_false_iff in Et as [Et|Et].
    - by apply bool_decide_eq_false in Et.
    - by apply negb_false_iff, bool_decide_eq_true in Et. }
  destruct (checkPathParams key) as [e|] eqn:Ep.
  - rewrite (Honly _ eq_refl) in *. subst err.
    assert (malformedWildcard key) by (by apply Hbad). naive_solver.
  - assert (¬ malformedWildcard key) by (by apply Hgood). naive_solver.
Qed.

Lemma Insert_validation_witness :
  str "/a{b/c}" ≠ [] ∧
  head (str "/a{b/c}") = Some slash ∧
  ¬ (last (str "/a{b/c}") = Some slash ∧ str "/a{b/c}" ≠ [slash]) ∧
  (Insert (Some New) (str "/a{b/c}") 0).1 = Some errBadPathParamSyntax ∧
  malformedWildcard (str "/a{b/c}").
Proof.
  assert (H1 : str "/a{b/c}" ≠ []) by discriminate.
  assert (H2 : head (str "/a{b/c}") = Some slash) by reflexivity.
  assert (H3 : ¬ (last (str "/a{b/c}") = Some slash ∧ str "/a{b/c}" ≠ [slash]))
    by (intros [H _]; vm_compute in H; discriminate H).
  split; [exact H1|]. split; [exact H2|]. split; [exact H3|].
  split; [reflexivity|].
  apply (proj1 (proj2 (proj2 (proj2 (Insert_validation New (str "/a{b/c}") 0) H1) H2) H3)).
  reflexivity.
Defined.

(** ** Longest-prefix lookup (C6) *)

(** C6: after inserting [/api/products], [/api/products/outer] and
    [/api/products/inner] into an empty tree,
    [FindLongestMatch "/api/products/list-all"] returns the value stored at
    [/api/products]; and on every tree built by successful inserts the
    lookup descends only where the longest common prefix of the fragment
    and the remaining key is the whole fragment (and not zero), and returns
    the value of the deepest payload-carrying node reached this way, or
    absence when no such node is reached. *)
Theorem FindLongestMatch_deepest {T} (vproducts vouter vinner : T) :
  (∃ t,
     insertAll [(str "/api/products", vproducts);
                (str "/api/products/outer", vouter);
                (str "/api/products/inner", vinner)] (Some New) = (None, t) ∧
     FindLongestMatch t (str "/api/products/list-all")
       = Some (mkFoundNode vproducts ∅)) ∧
  (∀ (kvs : list (gostring * T)) tr r key,
     insertAll kvs (Some New) = (None, Some tr) → root tr = Some r →
     key ≠ [] →
     match findLongestMatchRec r key with
     | Some m =>
         (∃ nv, n_value m = Some nv ∧
                FindLongestMatch (Some tr) key
                  = Some (mkFoundNode (nv_value nv) ∅)) ∧
         ∃ d, Reaches r key d m ∧
              ∀ d' m', Reaches r key d' m' → IsLeaf m' = true → d' ≤ d
     | None =>
         FindLongestMatch (Some tr) key = None ∧
         ∀ d' m', Reaches r key d' m' → IsLeaf m' = false
     end).
Proof.
  split.
  { eexists. split; [reflexivity|]. by vm_compute. }
  intros kvs tr r key Hall Hr Hne.
  destruct (insertAll_success kvs New _ New_compressed New_rootSlash Hall)
    as (tr' & [= <-] & Hcomp & _).
  pose proof (findLongestMatchRec_deepest r (Hcomp _ Hr) key) as Hdeep.
  unfold FindLongestMatch, checkTree. rewrite Hr.
  rewrite (bool_decide_eq_false_2 _ Hne).
  destruct (findLongestMatchRec r key) as [m|]; [|done].
  destruct Hdeep as (Hleaf & Hd). split; [|done].
  unfold IsLeaf in Hleaf. destruct (n_value m) as [nv|]; [|done]. by exists nv.
Qed.

Lemma FindLongestMatch_deepest_witness :
  insertAll [(str "/api", 1); (str "/api/products", 2); (str "/api/users", 3)]
      (Some New)
    = (None, Some (mkTree (Some
        (mkNode (str "/api") (Some (mkNodeValue 1 []))
           [mkNode (str "/") None
              [mkNode (str "products") (Some (mkNodeValue 2 [])) [];
               mkNode (str "users") (Some (mkNodeValue 3 [])) []]])))) ∧
  FindLongestMatch (Some (mkTree (Some
        (mkNode (str "/api") (Some (mkNodeValue 1 []))
           [mkNode (str "/") None
              [mkNode (str "products") (Some (mkNodeValue 2 [])) [];
               mkNode (str "users") (Some (mkNodeValue 3 [])) []]]))))
      (str "/api/products/list-all") = Some (mkFoundNode 2 ∅) ∧
  ∃ d, Reaches (mkNode (str "/api") (Some (mkNodeValue 1 []))
           [mkNode (str "/") None
              [mkNode (str "products") (Some (mkNodeValue 2 [])) [];
               mkNode (str "users") (Some (mkNodeValue 3 [])) []]])
         (str "/api/products/list-all") d
         (mkNode (str "products") (Some (mkNodeValue 2 [])) []).
Proof.
  split; [reflexivity|]. split; [reflexivity|].
  pose proof (proj2 (FindLongestMatch_deepest 0 0 0)
    [(str "/api", 1); (str "/api/products", 2); (str "/api/users", 3)]
    _ _ (str "/api/products/list-all") eq_refl eq_refl ltac:(discriminate)) as H.
  cbv beta iota in H. destruct H as (_ & d & Hd & _). by exists d.
Defined.

(** ** The parameter extractor (C8) and the 8-bit position (C10) *)

(** C8, as stated, fails on a bare pair of braces: [/{}] passes validation
    and its segment [{}] yields a descriptor, with the empty name and the
    position 1.  It also fails on a segment with two pairs of braces:
    [/{a}{b}] passes validation and its one segment yields two entries, the
    second one the zero value. *)
Lemma getPathParams_bare_braces :
  checkUrl (str "/{}") = None ∧
  getPathParams (str "/{}") = [mkParamInfo [] 1] ∧
  getPathParams (str "/{}") ≠ [] ∧
  checkUrl (str "/{a}{b}") = None ∧
  getPathParams (str "/{a}{b}")
    = [mkParamInfo (str "a}{b") 1; mkParamInfo [] 0].
Proof. split_and!; try reflexivity. discriminate. Qed.

(** C8 (amended): for every validated key in which no segment holds more
    than one opening brace, the extractor returns, in order, one descriptor
    per segment that holds an opening brace: its name is the segment without
    its first and last character (the text between the braces of a segment
    [{name}], the empty name for a bare [{}]) and its position is the
    zero-based index of the segment in the split on slashes, as a [uint8];
    a key without wildcard segments yields the empty sequence. *)
Theorem getPathParams_wildcards (v : gostring) :
  checkUrl v = None →
  Forall (λ el, Count el curlyStart ≤ 1) (Split v slash) →
  getPathParams v = wildcards (Split v slash) 0 ∧
  (∀ name, stripEnds (curlyStart :: name ++ [curlyEnd]) = name) ∧
  (ContainsRune v curlyStart = false → getPathParams v = []).
Proof.
  intros Hurl Hone. split_and!.
  - rewrite (getPathParams_spec v (checkUrl_segments v Hurl)).
    rewrite (wildcards_length_eq _ 0 Hone), <- Count_Split by done.
    by rewrite Nat.sub_diag, app_nil_r.
  - intros name. unfold stripEnds. cbn [length]. rewrite length_app. cbn [length].
    replace (S (length name + 1) - 1) with (S (length name)) by lia.
    cbn [take drop]. by rewrite take_app_length.
  - apply getPathParams_nowild.
Qed.

Lemma getPathParams_wildcards_witness :
  checkUrl (str "/foo/{bar}/baz/{id}") = None ∧
  Forall (λ el, Count el curlyStart ≤ 1) (Split (str "/foo/{bar}/baz/{id}") slash) ∧
  getPathParams (str "/foo/{bar}/baz/{id}")
    = [mkParamInfo (str "bar") 2; mkParamInfo (str "id") 4].
Proof.
  assert (H1 : checkUrl (str "/foo/{bar}/baz/{id}") = None) by reflexivity.
  assert (H2 : Forall (λ el, Count el curlyStart ≤ 1)
                 (Split (str "/foo/{bar}/baz/{id}") slash))
    by (repeat constructor).
  split; [exact H1|]. split; [exact H2|].
  exact (proj1 (getPathParams_wildcards (str "/foo/{bar}/baz/{id}") H1 H2)).
Defined.

(** C10: the position of a wildcard parameter is stored in 8 bits.  For
    every validated key and every segment at index [i] of its split that
    holds an opening brace, the stored position is [i] modulo 256 (every
    stored position is below 256); at match time the descriptor binds the
    segment of the search key at that wrapped index, and binds nothing when
    the search key has no such segment. *)
Theorem paramInfo_position_wraps (v : gostring) (i : nat) (el : gostring) :
  checkUrl v = None →
  Split v slash !! i = Some el → ContainsRune el curlyStart = true →
  mkParamInfo (stripEnds el) (Z.of_nat (i mod 256)) ∈ getPathParams v ∧
  (∀ q, q ∈ getPathParams v → (0 ≤ pi_pos q < 256)%Z) ∧
  (256 ≤ i → i mod 256 < i) ∧
  (∀ search,
     matchParams [mkParamInfo (stripEnds el) (Z.of_nat (i mod 256))] search
       = match Split search slash !! (i mod 256) with
         | Some seg => {[ stripEnds el := seg ]}
         | None => ∅
         end).
Proof.
  intros Hurl Hi Hel.
  rewrite (getPathParams_spec v (checkUrl_segments v Hurl)).
  assert (Hmod : Z.of_nat (i mod 256) = uint8 (Z.of_nat (0 + i))).
  { unfold uint8. cbn [Nat.add]. by rewrite Nat2Z.inj_mod. }
  split_and!.
  - apply elem_of_app. left. rewrite Hmod. by apply wildcards_elem.
  - intros q [Hq | Hq]%elem_of_app.
    + by eapply wildcards_pos.
    + apply elem_of_replicate in Hq as [-> _]. cbn. lia.
  - intros Hbig. pose proof (Nat.mod_upper_bound i 256). lia.
  - intros search. unfold matchParams. cbn [matchParams_loop pi_pos pi_key].
    rewrite Nat2Z.id.
    destruct (Split search slash !! (i mod 256)) as [seg|] eqn:Hseg.
    + apply lookup_lt_Some in Hseg as Hlt.
      replace (length (Split search slash) <=? i mod 256) with false
        by (symmetry; apply Nat.leb_gt; lia).
      by rewrite insert_empty.
    + by destruct (length (Split search slash) <=? i mod 256).
Qed.

Lemma paramInfo_position_wraps_witness :
  checkUrl key256 = None ∧
  Split key256 slash !! 256 = Some (str "{id}") ∧
  ContainsRune (str "{id}") curlyStart = true ∧
  mkParamInfo (str "id") 0 ∈ getPathParams key256.
Proof.
  assert (H1 : checkUrl key256 = None) by (vm_compute; reflexivity).
  assert (H2 : Split key256 slash !! 256 = Some (str "{id}"))
    by (vm_compute; reflexivity).
  assert (H3 : ContainsRune (str "{id}") curlyStart = true) by reflexivity.
  split; [exact H1|]. split; [exact H2|]. split; [exact H3|].
  exact (proj1 (paramInfo_position_wraps key256 256 (str "{id}") H1 H2 H3)).
Defined.

(** The same key end to end: the wildcard sits at segment 256, the stored
    position is 0, and [Find] binds [id] to segment 0 of the search key (the
    empty string before the leading slash), not to the segment [5] that the
    wildcard matched. *)
Lemma Find_position_wraps_example :
  Find (Insert (Some New) key256 7).2
       (concat (replicate 255 (str "/a")) ++ str "/5")
    = Some (mkFoundNode 7 {[ str "id" := [] ]}).
Proof. by vm_compute. Qed.


(** * Further properties of the package *)

(** ** The prefix length *)

Lemma longestCommonPrefix_loop_spec (a b pre1 pre2 : gostring) :
  length pre1 = length pre2 →
  longestCommonPrefix_loop (min (length a) (length b)) (pre1 ++ a) (pre2 ++ b)
    (length pre1) (length pre1 + min (length a) (length b))
  = length pre1 + longestCommonPrefix a b.
Proof.
  revert b pre1 pre2. induction a as [|x a IH]; intros b pre1 pre2 Hlen.
  - unfold min. cbn [length]. rewrite (proj2 (Nat.ltb_ge _ 0)) by lia.
    cbn. lia.
  - destruct b as [|y b].
    + cbn. lia.
    + assert (Hmin : min (length (x :: a)) (length (y :: b))
                     = S (min (length a) (length b))).
      { unfold min. cbn [length].
        destruct (length b <? length a) eqn:E1;
          destruct (S (length b) <? S (length a)) eqn:E2; try done;
          [apply Nat.ltb_lt in E1; apply Nat.ltb_ge in E2
          |apply Nat.ltb_ge in E1; apply Nat.ltb_lt in E2]; lia. }
      rewrite Hmin. cbn [longestCommonPrefix_loop longestCommonPrefix].
      replace (length pre1 <? length pre1 + S (min (length a) (length b)))
        with true by (symmetry; apply Nat.ltb_lt; lia).
      rewrite (list_lookup_middle pre1 a x (length pre1)) by done.
      rewrite (list_lookup_middle pre2 b y (length pre1)) by done.
      cbn [andb]. destruct (Ascii.eqb x y) eqn:E.
      * apply ascii_eqb_true in E. subst y.
        rewrite bool_decide_eq_true_2 by done.
        specialize (IH b (pre1 ++ [x]) (pre2 ++ [x])).
        rewrite !length_app in IH. cbn [length] in IH.
        rewrite <- !app_assoc in IH. cbn [app] in IH.
        replace (S (length pre1)) with (length pre1 + 1) by lia.
        replace (length pre1 + S (min (length a) (length b)))
          with (length pre1 + 1 + min (length a) (length b)) by lia.
        rewrite IH by lia. lia.
      * apply ascii_eqb_false in E.
        rewrite bool_decide_eq_false_2 by congruence. lia.
Qed.

(** X1: the counter loop of [longestCommonPrefix], bounded by [min] of the
    two lengths, computes the same number as the structural definition the
    rest of the development uses, and [min] is the smaller of its
    arguments. *)
Theorem longestCommonPrefix_indexed_eq (str1 str2 : gostring) :
  longestCommonPrefix_indexed str1 str2 = longestCommonPrefix str1 str2 ∧
  min (length str1) (length str2) = Nat.min (length str1) (length str2).
Proof.
  split.
  - unfold longestCommonPrefix_indexed.
    apply (longestCommonPrefix_loop_spec str1 str2 [] [] eq_refl).
  - unfold min. destruct (_ <? _) eqn:E;
      [apply Nat.ltb_lt in E | apply Nat.ltb_ge in E]; lia.
Qed.

(** X2: [longestCommonPrefix] returns the length of the longest common
    prefix: the two strings agree on that many leading characters, and on
    no longer prefix. *)
Theorem longestCommonPrefix_longest (str1 str2 : gostring) :
  take (longestCommonPrefix str1 str2) str1
    = take (longestCommonPrefix str1 str2) str2 ∧
  longestCommonPrefix str1 str2 ≤ length str1 ∧
  longestCommonPrefix str1 str2 ≤ length str2 ∧
  (∀ n, n ≤ length str1 → n ≤ length str2 →
        take n str1 = take n str2 → n ≤ longestCommonPrefix str1 str2) ∧
  longestCommonPrefix str1 str2 = longestCommonPrefix str2 str1.
Proof.
  split_and!; [apply lcp_take | apply lcp_le_l | apply lcp_le_r | | ].
  - revert str2. induction str1 as [|x a IH]; intros [|y b] n H1 H2 Heq;
      cbn in *; try lia.
    destruct n as [|n]; [lia|]. cbn in Heq. injection Heq as -> Heq.
    rewrite Ascii.eqb_refl.
    specialize (IH b n ltac:(lia) ltac:(lia) Heq). lia.
  - revert str2. induction str1 as [|x a IH]; intros [|y b]; cbn; try done.
    rewrite (Ascii.eqb_sym y x). destruct (Ascii.eqb x y); [by rewrite IH | done].
Qed.

Lemma longestCommonPrefix_longest_witness :
  2 ≤ length (str "/foo") ∧ 2 ≤ length (str "/fob") ∧
  take 2 (str "/foo") = take 2 (str "/fob") ∧
  2 ≤ longestCommonPrefix (str "/foo") (str "/fob").
Proof.
  assert (H1 : 2 ≤ length (str "/foo")) by (cbn; lia).
  assert (H2 : 2 ≤ length (str "/fob")) by (cbn; lia).
  assert (H3 : take 2 (str "/foo") = take 2 (str "/fob")) by reflexivity.
  split; [exact H1|]. split; [exact H2|]. split; [exact H3|].
  exact (proj1 (proj2 (proj2 (proj2
           (longestCommonPrefix_longest (str "/foo") (str "/fob"))))) 2 H1 H2 H3).
Defined.

(** ** The offset scanner *)

Lemma IndexRune_bounds (s : gostring) (c : ascii) :
  IndexRune s c = (-1)%Z ∨ (0 ≤ IndexRune s c < Z.of_nat (length s))%Z.
Proof.
  induction s as [|x s IH]; cbn [IndexRune length]; [by left|].
  destruct (Ascii.eqb x c); [right; lia|].
  destruct (IndexRune s c =? -1)%Z eqn:E; [by left|].
  apply Z.eqb_neq in E. right. lia.
Qed.

Lemma getOffsets_loop_bounds (stored searchKey : gostring) :
  ∀ i j w i' j' w',
    getOffsets_loop stored searchKey i j w = (i', j', w') →
    j ≤ length searchKey →
    i ≤ i' ∧ i' ≤ i + length stored ∧ j ≤ j' ∧ j' ≤ length searchKey.
Proof.
  induction stored as [|c stored IH]; intros i j w i' j' w';
    cbn [getOffsets_loop length].
  - intros [= <- <- <-] Hj. lia.
  - destruct (_ && _); [intros [= <- <- <-] Hj; lia|].
    destruct (Ascii.eqb c curlyStart).
    { intros H Hj. apply IH in H; lia. }
    destruct (Ascii.eqb c curlyEnd).
    { cbv zeta. intros H Hj. apply IH in H.
      - lia.
      - pose proof (IndexRune_bounds (drop j searchKey) slash) as Hidx.
        rewrite length_drop in *.
        destruct (IndexRune (drop j searchKey) slash =? -1)%Z eqn:E; [lia|].
        apply Z.eqb_neq in E. lia. }
    destruct w.
    { intros H Hj. apply IH in H; lia. }
    destruct (bool_decide (searchKey !! j = Some c)) eqn:E; cbn [negb].
    + apply bool_decide_eq_true in E. apply lookup_lt_Some in E.
      intros H Hj. apply IH in H; lia.
    + intros [= <- <- <-] Hj. lia.
Qed.

(** X3: the offsets of [getOffsets] stay inside the two strings, for every
    input, so the slices [n.key[lcp:]] and [searchKeyRem[offset2:]] that
    [findRec] takes with them are in range. *)
Theorem getOffsets_bounds (storedKey searchKey : gostring) (isWildcard : bool) :
  (getOffsets storedKey searchKey isWildcard).1.1 ≤ length storedKey ∧
  (getOffsets storedKey searchKey isWildcard).1.2 ≤ length searchKey.
Proof.
  unfold getOffsets.
  destruct (getOffsets_loop storedKey searchKey 0 0 isWildcard)
    as [[i' j'] w'] eqn:H.
  apply getOffsets_loop_bounds in H; cbn; lia.
Qed.

Lemma getOffsets_loop_static (stored searchKey : gostring) :
  ContainsRune stored curlyStart = false →
  ContainsRune stored curlyEnd = false →
  ∀ i j,
    getOffsets_loop stored searchKey i j false
    = (i + longestCommonPrefix stored (drop j searchKey),
       j + longestCommonPrefix stored (drop j searchKey), false).
Proof.
  induction stored as [|c stored IH]; intros H1 H2 i j;
    cbn [getOffsets_loop].
  - cbn. by rewrite !Nat.add_0_r.
  - rewrite ContainsRune_cons in H1, H2.
    apply orb_false_iff in H1 as [H1 H1']. apply orb_false_iff in H2 as [H2 H2'].
    rewrite H1, H2. cbn [negb andb].
    destruct (length searchKey <=? j) eqn:Ej; cbn [andb].
    + apply Nat.leb_le in Ej. rewrite drop_ge by lia. cbn.
      by rewrite !Nat.add_0_r.
    + apply Nat.leb_gt in Ej.
      destruct (lookup_lt_is_Some_2 searchKey j Ej) as [y Hy].
      rewrite (drop_S _ _ _ Hy). cbn [longestCommonPrefix]. rewrite Hy.
      destruct (Ascii.eqb c y) eqn:E.
      * apply ascii_eqb_true in E. subst y.
        rewrite bool_decide_eq_true_2 by done. cbn [negb].
        rewrite IH by done. by rewrite !Nat.add_succ_r.
      * apply ascii_eqb_false in E.
        rewrite bool_decide_eq_false_2 by congruence. cbn [negb].
        by rewrite !Nat.add_0_r.
Qed.

Lemma getOffsets_loop_skip (stored searchKey : gostring) :
  ContainsRune stored curlyStart = false →
  ContainsRune stored curlyEnd = false →
  ∀ i j, getOffsets_loop stored searchKey i j true = (i + length stored, j, true).
Proof.
  induction stored as [|c stored IH]; intros H1 H2 i j;
    cbn [getOffsets_loop length].
  - by rewrite Nat.add_0_r.
  - rewrite ContainsRune_cons in H1, H2.
    apply orb_false_iff in H1 as [H1 H1']. apply orb_false_iff in H2 as [H2 H2'].
    rewrite H1, H2, andb_false_r. rewrite IH by done. by rewrite Nat.add_succ_r.
Qed.

(** X4: on a fragment that holds no brace the scanner is the prefix
    computation when it starts outside a wildcard (both offsets are the
    length of the longest common prefix), and when it starts inside one it
    consumes the whole fragment and nothing of the search key, and stays
    inside. *)
Theorem getOffsets_static (storedKey searchKey : gostring) :
  ContainsRune storedKey curlyStart = false →
  ContainsRune storedKey curlyEnd = false →
  getOffsets storedKey searchKey false
    = (longestCommonPrefix storedKey searchKey,
       longestCommonPrefix storedKey searchKey, false) ∧
  getOffsets storedKey searchKey true = (length storedKey, 0, true).
Proof.
  intros H1 H2. unfold getOffsets. split.
  - by rewrite getOffsets_loop_static.
  - by rewrite getOffsets_loop_skip.
Qed.

Lemma getOffsets_static_witness :
  ContainsRune (str "/foo/bar") curlyStart = false ∧
  ContainsRune (str "/foo/bar") curlyEnd = false ∧
  getOffsets (str "/foo/bar") (str "/foo/baz") false = (7, 7, false) ∧
  getOffsets (str "/foo/bar") (str "/foo/baz") true = (8, 0, true).
Proof.
  split; [reflexivity|]. split; [reflexivity|].
  exact (getOffsets_static (str "/foo/bar") (str "/foo/baz") eq_refl eq_refl).
Defined.

(** ** The parameter extractor never writes out of range *)

Lemma getPathParams_loop_checked_ok segs : ∀ i counter params,
  counter + length (wildcards segs i) ≤ length params →
  getPathParams_loop_checked segs i counter params
    = Some (getPathParams_loop segs i counter params).
Proof.
  induction segs as [|el rest IH]; intros i counter params Hfit;
    cbn [getPathParams_loop_checked getPathParams_loop wildcards] in *;
    [done|].
  destruct (ContainsRune el curlyStart); cbn [negb]; [|by apply IH].
  cbn [length] in Hfit. cbv zeta.
  destruct (length el <? 2); [apply IH; lia|].
  rewrite (proj2 (Nat.leb_gt _ _)) by lia.
  apply IH. rewrite length_insert. lia.
Qed.

Lemma getPathParams_loop_length segs : ∀ i counter params,
  length (getPathParams_loop segs i counter params) = length params.
Proof.
  induction segs as [|el rest IH]; intros i counter params;
    cbn [getPathParams_loop]; [done|].
  repeat case_match; rewrite IH; [done | done |]. by rewrite length_insert.
Qed.

(** X5: on every string, validated or not, [getPathParams] never writes
    past the end of the slice it allocated (the checked loop has no panic
    and agrees with the model), and the slice it returns has one entry per
    opening brace of the string. *)
Theorem getPathParams_in_range (v : gostring) :
  getPathParams_checked v = Some (getPathParams v) ∧
  length (getPathParams v) = Count v curlyStart.
Proof.
  split.
  - unfold getPathParams_checked, getPathParams.
    apply getPathParams_loop_checked_ok. rewrite length_replicate. cbn.
    pose proof (wildcards_length_le (Split v slash) 0) as Hle.
    by rewrite <- Count_Split in Hle.
  - unfold getPathParams. by rewrite getPathParams_loop_length, length_replicate.
Qed.

(** ** What a tree built by inserts holds *)

Section Contents.

Context {T : Type}.
Implicit Types (n c : Node T) (chs : list (Node T)) (nv : NodeValue T).

(** A successful [insertRec] stores the new key and nothing else. *)
Lemma insertRec_success_only n : ∀ key value n',
  insertRec n key value = (None, n') →
  ∀ k0 nv0, Stored n' k0 nv0 → Stored n k0 nv0 ∨ (k0 = key ∧ nv0 = value).
Proof.
  induction n as [k v chs IH] using Node_forall_ind.
  intros key value n'. rewrite insertRec_unfold. cbv zeta.
  pose proof (lcp_le_l k key) as Hle1. pose proof (lcp_le_r k key) as Hle2.
  pose proof (lcp_take k key) as Htake.
  set (lcp := longestCommonPrefix k key) in *.
  destruct (lcp =? 0) eqn:E0; [done|]. apply Nat.eqb_neq in E0.
  assert (Hkey : key = take lcp k ++ drop lcp key) by (by rewrite Htake, take_drop).
  clearbody lcp.
  destruct ((length k =? lcp) && (length key =? lcp)) eqn:Eexact.
  { apply andb_true_iff in Eexact as [E1 E2]. apply Nat.eqb_eq in E1, E2.
    assert (key = k) as ->.
    { rewrite Hkey. rewrite drop_ge, app_nil_r by lia. apply take_ge. lia. }
    destruct (IsLeaf _); [done|]. intros [= <-] k0 nv0 Hs.
    inversion Hs; subst; [by right|]. left. by econstructor. }
  destruct (lcp <? length k) eqn:Esplit.
  { assert (Hold : ∀ k' nv0, Stored (createNewNode (drop lcp k) v chs) k' nv0 →
              Stored (mkNode k v chs) (take lcp k ++ k') nv0).
    { intros k' nv0 Hs. inversion Hs; subst.
      - rewrite take_drop. constructor.
      - rewrite app_assoc, take_drop. by econstructor. }
    destruct (bool_decide (drop lcp key = [])) eqn:Erem.
    - apply bool_decide_eq_true in Erem. rewrite Erem, app_nil_r in Hkey.
      intros [= <-] k0 nv0 Hs.
      inversion Hs as [|? ? ? c0 ? ? Hin Hs0]; subst; [by right|].
      apply list_elem_of_singleton in Hin as ->. left. by apply Hold.
    - intros [= <-] k0 nv0 Hs.
      inversion Hs as [|? ? ? c0 ? ? Hin Hs0]; subst.
      apply elem_of_cons in Hin as [-> | Hin]; [left; by apply Hold|].
      apply list_elem_of_singleton in Hin as ->.
      inversion Hs0 as [|? ? ? ? ? ? Hin' _]; subst; [by right|].
      by inversion Hin'. }
  apply Nat.ltb_ge in Esplit.
  assert (Hfull : take lcp k = k) by (apply take_ge; lia).
  rewrite Hfull in Hkey.
  destruct (iterateInsert chs (drop lcp key) value) as [[e1|] chs1] eqn:Hit.
  - destruct (iterateInsert_failure _ (Forall_impl _ _ _ IH (λ c _, insertRec_failure c))
                _ _ _ _ Hit) as [-> Hcase].
    destruct Hcase as [[-> _]| ->]; cbn; [|done].
    intros [= <-] k0 nv0 Hs. unfold addToChildren in Hs; cbn in Hs.
    inversion Hs as [|? ? ? c0 ? ? Hin Hs0]; subst; [left; constructor|].
    apply elem_of_app in Hin as [Hin | Hin]; [left; by econstructor|].
    apply list_elem_of_singleton in Hin as ->.
    inversion Hs0 as [|? ? ? ? ? ? Hin' _]; subst; [by right|].
    by inversion Hin'.
  - intros [= <-] k0 nv0 Hs.
    destruct (iterateInsert_success _ _ _ _ Hit) as (pre & c & c' & post & -> & -> & Hins).
    apply Forall_app in IH as [_ IH]. apply Forall_cons in IH as [IHc _].
    inversion Hs as [|? ? ? c0 ? ? Hin Hs0]; subst; [left; constructor|].
    apply elem_of_app in Hin as [Hin | Hin].
    { left. econstructor; [|done]. apply elem_of_app. by left. }
    apply elem_of_cons in Hin as [-> | Hin].
    + destruct (IHc _ _ _ Hins _ _ Hs0) as [Hold | [-> ->]]; [|by right].
      left. econstructor; [|done]. apply elem_of_app. right. by left.
    + left. econstructor; [|done]. apply elem_of_app. right. by right.
Qed.

Lemma iterateInsert_stored_child chs key (value : NodeValue T) chs' :
  iterateInsert chs key value = (Some errKeyIsAlreadyStored, chs') →
  ∃ c, c ∈ chs ∧ insertRec c key value = (Some errKeyIsAlreadyStored, c).
Proof.
  revert chs'. induction chs as [|c chs IH]; intros chs'; cbn [iterateInsert]; [done|].
  destruct (insertRec c key value) as [[e1|] c1] eqn:Hins; [|done].
  destruct (insertRec_failure _ _ _ _ _ Hins) as [-> [[-> _]|[-> _]]]; cbn.
  - destruct (iterateInsert chs key value) as [err rest'] eqn:Hit.
    intros [= -> <-]. destruct (IH _ eq_refl) as (c0 & Hc0 & H0).
    exists c0. split; [by right | done].
  - intros _. exists c. split; [by left | done].
Qed.

(** [insertRec] reports a stored key only where the key is stored. *)
Lemma insertRec_stored_only n : ∀ key value n',
  insertRec n key value = (Some errKeyIsAlreadyStored, n') →
  ∃ nv0, Stored n key nv0.
Proof.
  induction n as [k v chs IH] using Node_forall_ind.
  intros key value n'. rewrite insertRec_unfold. cbv zeta.
  pose proof (lcp_le_l k key) as Hle1. pose proof (lcp_le_r k key) as Hle2.
  pose proof (lcp_take k key) as Htake.
  set (lcp := longestCommonPrefix k key) in *.
  destruct (lcp =? 0) eqn:E0; [done|].
  assert (Hkey : key = take lcp k ++ drop lcp key) by (by rewrite Htake, take_drop).
  clearbody lcp.
  destruct ((length k =? lcp) && (length key =? lcp)) eqn:Eexact.
  { apply andb_true_iff in Eexact as [E1 E2]. apply Nat.eqb_eq in E1, E2.
    assert (key = k) as ->.
    { rewrite Hkey. rewrite drop_ge, app_nil_r by lia. apply take_ge. lia. }
    unfold IsLeaf. cbn. destruct v as [nv0|]; [|done]. intros _. exists nv0. constructor. }
  destruct (lcp <? length k) eqn:Esplit; [by destruct (bool_decide _)|].
  apply Nat.ltb_ge in Esplit.
  assert (Hfull : take lcp k = k) by (apply take_ge; lia).
  rewrite Hfull in Hkey.
  destruct (iterateInsert chs (drop lcp key) value) as [[e1|] chs1] eqn:Hit; [|done].
  destruct (decide (e1 = errKeyIsAlreadyStored)) as [-> | Hne].
  - intros _. destruct (iterateInsert_stored_child _ _ _ _ Hit) as (c & Hc & Hins).
    rewrite Forall_forall in IH. destruct (IH c Hc _ _ _ Hins) as [nv0 Hs].
    exists nv0. apply (Stored_eq _ _ _ _ Hkey). by econstructor.
  - destruct (isNoCommonPrefix e1); cbn; [done|]. by intros [= ->].
Qed.

Lemma Insert_success_only (tr tr' : Tree T) k v :
  Insert (Some tr) k v = (None, Some tr') →
  ∀ k0 nv0, treeStored tr' k0 nv0 →
    treeStored tr k0 nv0 ∨ (k0 = k ∧ nv0 = payloadOf (k, v)).
Proof.
  unfold Insert. destruct (bool_decide (k = [])); [done|].
  destruct (checkUrl k); [done|]. destruct tr as [[r|]]; cbn.
  - destruct (insertRec r k _) as [err r'] eqn:Hins. intros [= -> <-].
    intros k0 nv0 (r0 & [= <-] & Hs).
    destruct (insertRec_success_only _ _ _ _ Hins _ _ Hs) as [Hold | Hnew];
      [left; by eexists | by right].
  - intros [= <-] k0 nv0 (r0 & [= <-] & Hs). right.
    inversion Hs as [|? ? ? ? ? ? Hin' _]; subst; [done | by inversion Hin'].
Qed.

(** The keys a run of successful inserts adds to a compressed tree: they
    were not stored before, they are pairwise different, and the tree holds
    nothing else that it did not hold before. *)
Lemma insertAll_log (kvs : list (gostring * T)) : ∀ (tr : Tree T) t',
  treeCompressed tr →
  insertAll kvs (Some tr) = (None, t') →
  ∃ tr', t' = Some tr' ∧
    (∀ k nv, treeStored tr' k nv →
       treeStored tr k nv ∨ ∃ v, (k, v) ∈ kvs ∧ nv = payloadOf (k, v)) ∧
    (∀ k v nv, (k, v) ∈ kvs → ¬ treeStored tr k nv) ∧
    NoDup kvs.*1.
Proof.
  induction kvs as [|[k v] kvs IH]; intros tr t' Hcomp; cbn [insertAll].
  - intros [= <-]. exists tr. split_and!; [done | by left | | constructor].
    intros k v nv Hin. by inversion Hin.
  - destruct (Insert (Some tr) k v) as [[e|] t1] eqn:Hins; [done|].
    destruct (Insert_success _ _ _ _ Hcomp Hins)
      as (Hk & Hurl & tr1 & -> & Hc1 & _ & Hst1 & Hkeep1 & _).
    intros Hall. destruct (IH _ _ Hc1 Hall) as (tr' & -> & Honly & Hfresh & Hnd).
    assert (Hnew : ∀ nv, ¬ treeStored tr k nv).
    { intros nv Hs. rewrite (Insert_stored tr k nv v Hcomp Hs Hurl) in Hins. done. }
    exists tr'. split_and!; [done | | | ].
    + intros k0 nv0 Hs. destruct (Honly _ _ Hs) as [Hs1 | (v0 & Hin & ->)].
      * destruct (Insert_success_only _ _ _ _ Hins _ _ Hs1) as [Hold | [-> ->]];
          [by left|]. right. exists v. split; [by left | done].
      * right. exists v0. split; [by right | done].
    + intros k0 v0 nv0 [[= -> ->] | Hin]%elem_of_cons; [apply Hnew|].
      intros Hs. exact (Hfresh _ _ _ Hin (Hkeep1 _ _ Hs)).
    + cbn. apply NoDup_cons. split; [|done].
      intros ((k0 & v0) & Heq & Hin)%list_elem_of_fmap. cbn in Heq. subst k0.
      exact (Hfresh _ _ _ Hin Hst1).
Qed.

Lemma built_stored_iff (kvs : list (gostring * T)) (tr : Tree T) :
  insertAll kvs (Some New) = (None, Some tr) →
  ∀ k nv, treeStored tr k nv ↔ ∃ v, (k, v) ∈ kvs ∧ nv = payloadOf (k, v).
Proof.
  intros Hall k nv.
  destruct (insertAll_success kvs New _ New_compressed New_rootSlash Hall)
    as (tr1 & [= <-] & _ & _ & Hst & _).
  destruct (insertAll_log kvs New _ New_compressed Hall)
    as (tr2 & [= <-] & Honly & _).
  split.
  - intros Hs. destruct (Honly _ _ Hs) as [(r & Hr & _) | H]; [done | done].
  - intros (v & Hin & ->). by apply Hst.
Qed.

Lemma checkUrl_errors (k : gostring) e :
  checkUrl k = Some e →
  e = errMissingSlashPrefix ∨ e = errPresentSlashSuffix
  ∨ e = errBadPathParamSyntax.
Proof.
  unfold checkUrl. repeat case_match; try (intros [= <-]; by auto).
  intros ?%checkPathParams_errors. auto.
Qed.

(** The error of [Insert] on a tree built by inserts, by the three cases of
    the key: stored, invalid, or valid and new. *)
Lemma Insert_built_cases (kvs : list (gostring * T)) (tr : Tree T) k v :
  insertAll kvs (Some New) = (None, Some tr) →
  (k ∈ kvs.*1 ∧ k ≠ [] ∧ checkUrl k = None ∧
     (Insert (Some tr) k v).1 = Some errKeyIsAlreadyStored)
  ∨ (k ∉ kvs.*1 ∧ k = [] ∧ (Insert (Some tr) k v).1 = Some errKeyIsEmpty)
  ∨ (k ∉ kvs.*1 ∧ k ≠ [] ∧ ∃ e, checkUrl k = Some e ∧
       (Insert (Some tr) k v).1 = Some e)
  ∨ (k ∉ kvs.*1 ∧ k ≠ [] ∧ checkUrl k = None ∧ (Insert (Some tr) k v).1 = None).
Proof.
  intros Hall.
  destruct (insertAll_success kvs New _ New_compressed New_rootSlash Hall)
    as (tr1 & [= <-] & Hcomp & Hslash & Hst & _).
  pose proof (built_stored_iff kvs tr Hall) as Hiff.
  destruct (decide (k ∈ kvs.*1)) as [Hin | Hnin].
  { left. apply list_elem_of_fmap in Hin as ([k0 v0] & Heq & Hin). cbn in Heq. subst k0.
    destruct (Hst _ _ Hin) as [Hurl Hs].
    split; [apply list_elem_of_fmap; by exists (k, v0)|].
    destruct Hs as (r & Hr & Hs).
    split; [by eapply Stored_nonempty; [apply Hcomp|]|]. split; [done|].
    by rewrite (Insert_stored tr k _ v Hcomp (ex_intro _ r (conj Hr Hs)) Hurl). }
  right. destruct (decide (k = [])) as [-> | Hne]; [by left|].
  right. unfold Insert. rewrite (bool_decide_eq_false_2 _ Hne).
  destruct (checkUrl k) as [e|] eqn:Hurl; [left; eauto|]. right.
  split; [done|]. split; [done|]. split; [done|].
  destruct (root tr) as [r|] eqn:Hr; [|done].
  destruct (insertRec r k _) as [[e|] r'] eqn:Hins; [|done]. exfalso.
  destruct (insertRec_failure _ _ _ _ _ Hins) as [-> [[-> Hz]|[-> _]]].
  - apply lcp_zero in Hz. rewrite (Hslash _ Hr), (checkUrl_head _ Hurl) in Hz.
    pose proof (Hcomp _ Hr) as Hc. destruct Hc. cbn in *. naive_solver.
  - destruct (insertRec_stored_only _ _ _ _ Hins) as [nv0 Hs].
    destruct (proj1 (Hiff k nv0) (ex_intro _ r (conj Hr Hs))) as (v0 & Hin & _).
    apply Hnin. apply list_elem_of_fmap. by exists (k, v0).
Qed.

(** On a tree without wildcards a search ends only at the node its key
    spells. *)
Lemma findFirst_Some chs key w m :
  findFirst chs key w = Some m → ∃ c, c ∈ chs ∧ findRec c key w = Some m.
Proof.
  induction chs as [|a chs IH]; cbn [findFirst]; [done|].
  destruct (findRec a key w) as [m'|] eqn:Ha.
  - intros [= ->]. exists a. split; [by left | done].
  - intros (c & Hc & Hm)%IH. exists c. split; [by right | done].
Qed.

Lemma findRec_static_sound n :
  nowild n → ∀ key m, findRec n key false = Some m →
  ∀ nv, n_value m = Some nv → Stored n key nv.
Proof.
  induction n as [k v chs IH] using Node_forall_ind.
  intros Hnw key m. inversion Hnw as [? ? ? Hkw Hallw]; subst.
  rewrite findRec_unfold. cbv zeta. rewrite Hkw.
  destruct (longestCommonPrefix k key =? 0); cbn [negb andb]; [done|].
  destruct (bool_decide (key = k)) eqn:Ek.
  { apply bool_decide_eq_true in Ek. subst key. intros [= <-] nv Hv.
    cbn in Hv. subst v. constructor. }
  destruct (longestCommonPrefix k key <? length k) eqn:El; [done|].
  apply Nat.ltb_ge in El. pose proof (lcp_le_l k key) as Hle.
  assert (Hfull : longestCommonPrefix k key = length k) by lia.
  rewrite Hfull. intros (c & Hc & Hm)%findFirst_Some nv Hv.
  rewrite Forall_forall in IH, Hallw.
  apply (Stored_eq _ _ _ _ (lcp_full_l _ _ Hfull)).
  econstructor; [done|]. exact (IH c Hc (Hallw c Hc) _ _ Hm _ Hv).
Qed.

Lemma Find_stored_static (tr : Tree T) k nv :
  treeCompressed tr → treeNowild tr → treeStored tr k nv →
  Find (Some tr) k
    = Some (mkFoundNode (nv_value nv) (matchParams (nv_params nv) k)).
Proof.
  intros Hcomp Hnw (r & Hr & Hs).
  destruct (findRec_stored r k _ (Hcomp _ Hr) (Hnw _ Hr) Hs) as (m & Hm & Hv).
  unfold Find, checkTree. rewrite Hr.
  rewrite bool_decide_eq_false_2 by (by eapply Stored_nonempty; [apply Hcomp|]).
  by rewrite Hm, Hv.
Qed.

Lemma Find_static_sound (tr : Tree T) k fn :
  treeNowild tr → Find (Some tr) k = Some fn →
  ∃ nv, treeStored tr k nv ∧
        fn = mkFoundNode (nv_value nv) (matchParams (nv_params nv) k).
Proof.
  intros Hnw. unfold Find, checkTree.
  destruct (root tr) as [r|] eqn:Hr; [|done].
  destruct (bool_decide (k = [])); [done|].
  destruct (findRec r k false) as [m|] eqn:Hm; [|done].
  destruct (n_value m) as [nv|] eqn:Hv; [|done]. intros [= <-].
  exists nv. split; [|done]. exists r. split; [done|].
  by eapply findRec_static_sound; [apply Hnw| |].
Qed.

(** ** The longest stored prefix *)

Lemma prefix_lcp (k key : gostring) :
  k `prefix_of` key → longestCommonPrefix k key = length k.
Proof. intros [r ->]. apply lcp_app. Qed.

Lemma Stored_head n k nv :
  compressed n → Stored n k nv → head k = head (n_key n) ∧ k ≠ [].
Proof.
  intros Hc Hs. destruct (Stored_prefix _ _ _ Hs) as [r ->].
  destruct Hc as [k0 ? ? Hk _ _]. cbn. by destruct k0.
Qed.

Lemma prefix_head (k key : gostring) :
  k ≠ [] → k `prefix_of` key → head key = head k.
Proof. intros Hk [r ->]. by destruct k. Qed.

Lemma Stored_inv k v chs k' nv' :
  Stored (mkNode k v chs) k' nv' →
  (k' = k ∧ v = Some nv') ∨
  ∃ c k'', c ∈ chs ∧ k' = k ++ k'' ∧ Stored c k'' nv'.
Proof.
  intros Hs. inversion Hs as [|? ? ? c k'' ? Hc Hs']; subst; [by left|].
  right. by exists c, k''.
Qed.

Lemma findLongestMatchRec_longest n : longest_ok n.
Proof.
  induction n as [k v chs IH] using Node_forall_ind.
  intros Hcomp key. rewrite findLongestMatchRec_unfold. cbv zeta.
  inversion Hcomp as [? ? ? Hk Hsib Hall]; subst.
  rewrite Forall_forall in IH, Hall.
  assert (Hnone : longestCommonPrefix k key ≠ length k →
            ∀ k' nv', Stored (mkNode k v chs) k' nv' → ¬ k' `prefix_of` key).
  { intros Hne k' nv' Hs Hp. apply Hne.
    destruct (Stored_prefix _ _ _ Hs) as [r ->]. cbn in Hp.
    apply prefix_lcp. by eapply prefix_app_l. }
  destruct (longestCommonPrefix k key =? 0) eqn:E0.
  { apply Nat.eqb_eq in E0. apply Hnone. rewrite E0. by destruct k. }
  destruct (longestCommonPrefix k key =? length k) eqn:E1; cbn [negb].
  2:{ apply Nat.eqb_neq in E1. by apply Hnone. }
  apply Nat.eqb_eq in E1. rewrite E1.
  pose proof (lcp_full_l _ _ E1) as Hkey.
  set (key' := drop (length k) key) in *.
  (* a stored key below a child that is a prefix of the rest pins the child *)
  assert (Hsub : ∀ k' nv', Stored (mkNode k v chs) k' nv' → k' `prefix_of` key →
            (k' = k ∧ v = Some nv') ∨
            ∃ c k'', c ∈ chs ∧ k' = k ++ k'' ∧ Stored c k'' nv' ∧
                     k'' `prefix_of` key').
  { intros k' nv' Hs Hp.
    destruct (Stored_inv _ _ _ _ _ Hs) as [H | (c & k'' & Hc & -> & Hs')]; [by left|].
    right. exists c, k''. split_and!; try done.
    rewrite Hkey in Hp. by apply prefix_app_inv in Hp. }
  assert (Huniq : ∀ c c' k1 k2 nv1 nv2, c ∈ chs → c' ∈ chs →
            Stored c k1 nv1 → k1 `prefix_of` key' →
            Stored c' k2 nv2 → k2 `prefix_of` key' → c' = c).
  { intros c c' k1 k2 nv1 nv2 Hc Hc' Hs1 Hp1 Hs2 Hp2.
    destruct (siblings_cases _ _ _ Hsib Hc Hc') as [-> | Hne]; [done|].
    destruct (Stored_head _ _ _ (Hall _ Hc) Hs1) as [Hh1 Hn1].
    destruct (Stored_head _ _ _ (Hall _ Hc') Hs2) as [Hh2 Hn2].
    pose proof (prefix_head _ _ Hn1 Hp1). pose proof (prefix_head _ _ Hn2 Hp2).
    congruence. }
  destruct (findLongestFirst chs key') as [m|] eqn:Hfirst.
  - apply findLongestFirst_Some in Hfirst as (c & Hc & Hm).
    pose proof (IH c Hc (Hall c Hc) key') as Hlong. rewrite Hm in Hlong.
    destruct Hlong as (kc & nv & Hv & Hs & Hp & Hmax).
    exists (k ++ kc), nv. split_and!; [done | by econstructor | | ].
    + rewrite Hkey. by apply prefix_app.
    + intros k' nv' Hs' Hp'. rewrite length_app.
      destruct (Hsub _ _ Hs' Hp') as [[-> _] | (c' & k'' & Hc' & -> & Hs'' & Hp'')];
        [lia|].
      rewrite (Huniq c c' _ _ _ _ Hc Hc' Hs Hp Hs'' Hp'') in Hs''.
      specialize (Hmax _ _ Hs'' Hp''). rewrite length_app. lia.
  - pose proof (findLongestFirst_None _ _ Hfirst) as Hnonec.
    assert (Hchild : ∀ c k'' nv', c ∈ chs → Stored c k'' nv' →
              ¬ k'' `prefix_of` key').
    { intros c k'' nv' Hc Hs. pose proof (IH c Hc (Hall c Hc) key') as Hlong.
      rewrite (Hnonec c Hc) in Hlong. by eapply Hlong. }
    unfold IsLeaf. cbn [n_value]. destruct v as [nv|]; cbn [negb].
    + exists k, nv. split_and!; [done | constructor | by exists key' | ].
      intros k' nv' Hs' Hp'.
      destruct (Hsub _ _ Hs' Hp') as [[-> _] | (c' & k'' & Hc' & -> & Hs'' & Hp'')];
        [done|]. by destruct (Hchild _ _ _ Hc' Hs'' Hp'').
    + intros k' nv' Hs' Hp'.
      destruct (Hsub _ _ Hs' Hp') as [[_ [=]] | (c' & k'' & Hc' & -> & Hs'' & Hp'')].
      by destruct (Hchild _ _ _ Hc' Hs'' Hp'').
Qed.

End Contents.

(** X6: in a tree built from the empty tree by successful inserts, a node
    carries a payload exactly where the fragments from the root down to it
    spell an inserted key, and the payload is the value inserted with that
    key together with the parameter descriptors of the key; no key was
    inserted twice. *)
Theorem payload_iff_inserted {T} (kvs : list (gostring * T)) (tr : Tree T) :
  insertAll kvs (Some New) = (None, Some tr) →
  (∀ k nv, treeStored tr k nv ↔ ∃ v, (k, v) ∈ kvs ∧ nv = payloadOf (k, v)) ∧
  NoDup kvs.*1.
Proof.
  intros Hall. split; [by apply built_stored_iff|].
  by destruct (insertAll_log kvs New _ New_compressed Hall) as (tr2 & _ & _ & _ & Hnd).
Qed.

Lemma payload_iff_inserted_witness :
  insertAll [(str "/foo/bar", 1); (str "/foo/{id}", 2)] (Some New)
    = (None, Some (mkTree (Some
        (mkNode (str "/foo/") None
           [mkNode (str "bar") (Some (mkNodeValue 1 [])) [];
            mkNode (str "{id}")
              (Some (mkNodeValue 2 [mkParamInfo (str "id") 2])) []])))) ∧
  NoDup [str "/foo/bar"; str "/foo/{id}"].
Proof.
  split; [reflexivity|].
  exact (proj2 (payload_iff_inserted
                  [(str "/foo/bar", 1); (str "/foo/{id}", 2)] _ eq_refl)).
Defined.

(** X7: on a tree built from the empty tree by successful inserts, [Insert]
    succeeds exactly for a non-empty key that passes validation and was not
    inserted before, reports a stored key exactly for a key that was
    inserted before, and never hands the internal no-common-prefix signal
    to its caller. *)
Theorem Insert_outcome {T} (kvs : list (gostring * T)) (tr : Tree T) k v :
  insertAll kvs (Some New) = (None, Some tr) →
  ((Insert (Some tr) k v).1 = None
     ↔ k ≠ [] ∧ checkUrl k = None ∧ k ∉ kvs.*1) ∧
  ((Insert (Some tr) k v).1 = Some errKeyIsAlreadyStored ↔ k ∈ kvs.*1) ∧
  (Insert (Some tr) k v).1 ≠ Some errNoCommonPrefix.
Proof.
  intros Hall.
  destruct (Insert_built_cases kvs tr k v Hall)
    as [(Hin & Hk & Hurl & ->) | [(Hnin & -> & ->) | [(Hnin & Hk & e & Hurl & ->)
        | (Hnin & Hk & Hurl & ->)]]].
  - naive_solver.
  - naive_solver.
  - destruct (checkUrl_errors _ _ Hurl) as [-> | [-> | ->]]; naive_solver.
  - naive_solver.
Qed.

Lemma Insert_outcome_witness :
  insertAll [(str "/foo/bar", 1); (str "/foo/baz", 2)] (Some New)
    = (None, Some (mkTree (Some
        (mkNode (str "/foo/ba") None
           [mkNode (str "r") (Some (mkNodeValue 1 [])) [];
            mkNode (str "z") (Some (mkNodeValue 2 [])) []])))) ∧
  (Insert (Some (mkTree (Some
        (mkNode (str "/foo/ba") None
           [mkNode (str "r") (Some (mkNodeValue 1 [])) [];
            mkNode (str "z") (Some (mkNodeValue 2 [])) []]))))
      (str "/foo/ba") 3).1 ≠ Some errNoCommonPrefix.
Proof.
  split; [reflexivity|].
  exact (proj2 (proj2 (Insert_outcome
           [(str "/foo/bar", 1); (str "/foo/baz", 2)] _ (str "/foo/ba") 3
           eq_refl))).
Defined.

(** X8: on a tree built from the empty tree by successful inserts of keys
    without wildcard segments, [Find] is exact: it answers a key with a
    value exactly when the key was inserted with that value, always with an
    empty parameter map, and it answers absence for every other key
    (partial prefixes and extensions of stored keys included). *)
Theorem Find_static_exact {T} (kvs : list (gostring * T)) (tr : Tree T) k :
  insertAll kvs (Some New) = (None, Some tr) →
  Forall (λ kv, ContainsRune kv.1 curlyStart = false) kvs →
  (∀ fn, Find (Some tr) k = Some fn ↔ ∃ v, (k, v) ∈ kvs ∧ fn = mkFoundNode v ∅) ∧
  (Find (Some tr) k = None ↔ k ∉ kvs.*1).
Proof.
  intros Hall Hkvs.
  destruct (insertAll_success kvs New _ New_compressed New_rootSlash Hall)
    as (tr1 & [= <-] & Hcomp & _ & Hst & _ & Hnw).
  specialize (Hnw New_nowild Hkvs).
  pose proof (built_stored_iff kvs tr Hall) as Hiff.
  assert (Hfn : ∀ fn, Find (Some tr) k = Some fn
                       ↔ ∃ v, (k, v) ∈ kvs ∧ fn = mkFoundNode v ∅).
  { intros fn. split.
    - intros (nv & Hs & ->)%(Find_static_sound _ _ _ Hnw).
      apply Hiff in Hs as (v & Hin & ->). exists v. split; [done|].
      unfold payloadOf, createNewNodeValue. cbn [nv_value nv_params fst snd].
      rewrite Forall_forall in Hkvs. specialize (Hkvs _ Hin). cbn in Hkvs.
      by rewrite (getPathParams_nowild _ Hkvs).
    - intros (v & Hin & ->). destruct (Hst _ _ Hin) as [_ Hs].
      rewrite (Find_stored_static tr k _ Hcomp Hnw Hs).
      unfold createNewNodeValue. cbn [nv_value nv_params].
      rewrite Forall_forall in Hkvs. specialize (Hkvs _ Hin). cbn in Hkvs.
      by rewrite (getPathParams_nowild _ Hkvs). }
  split; [done|]. split.
  - intros Hnone ([k0 v0] & Heq & Hin)%list_elem_of_fmap. cbn in Heq. subst k0.
    assert (Find (Some tr) k = Some (mkFoundNode v0 ∅)) by (apply Hfn; eauto).
    congruence.
  - intros Hnin. destruct (Find (Some tr) k) as [fn|] eqn:Hf; [|done].
    destruct (proj1 (Hfn fn) eq_refl) as (v & Hin & _). exfalso. apply Hnin.
    apply list_elem_of_fmap. by exists (k, v).
Qed.

Lemma Find_static_exact_witness :
  insertAll [(str "/foo/bar/baz", 1); (str "/foo/bar/bar", 2)] (Some New)
    = (None, Some (mkTree (Some
        (mkNode (str "/foo/bar/ba") None
           [mkNode (str "z") (Some (mkNodeValue 1 [])) [];
            mkNode (str "r") (Some (mkNodeValue 2 [])) []])))) ∧
  Forall (λ kv : gostring * nat, ContainsRune kv.1 curlyStart = false)
    [(str "/foo/bar/baz", 1); (str "/foo/bar/bar", 2)] ∧
  str "/foo/bar/bak" ∉ [str "/foo/bar/baz"; str "/foo/bar/bar"] ∧
  Find (Some (mkTree (Some
        (mkNode (str "/foo/bar/ba") None
           [mkNode (str "z") (Some (mkNodeValue 1 [])) [];
            mkNode (str "r") (Some (mkNodeValue 2 [])) []]))))
       (str "/foo/bar/bak") = None.
Proof.
  assert (H2 : Forall (λ kv : gostring * nat, ContainsRune kv.1 curlyStart = false)
                 [(str "/foo/bar/baz", 1); (str "/foo/bar/bar", 2)])
    by (repeat constructor).
  assert (H3 : str "/foo/bar/bak" ∉ [str "/foo/bar/baz"; str "/foo/bar/bar"]).
  { intros [H | [H | H]%elem_of_cons]%elem_of_cons;
      [discriminate H | discriminate H | by inversion H]. }
  split; [reflexivity|]. split; [exact H2|]. split; [exact H3|].
  exact (proj2 (proj2 (Find_static_exact
           [(str "/foo/bar/baz", 1); (str "/foo/bar/bar", 2)] _
           (str "/foo/bar/bak") eq_refl H2)) H3).
Defined.

(** The longest-prefix lookup on a tree built by inserts, in terms of the
    inserted keys. *)
Lemma FindLongestMatch_built {T} (kvs : list (gostring * T))
    (tr : Tree T) key :
  insertAll kvs (Some New) = (None, Some tr) →
  match FindLongestMatch (Some tr) key with
  | Some fn =>
      fn_params fn = ∅ ∧
      ∃ k, (k, fn_value fn) ∈ kvs ∧ k `prefix_of` key ∧
           ∀ k' v', (k', v') ∈ kvs → k' `prefix_of` key → length k' ≤ length k
  | None => ∀ k' v', (k', v') ∈ kvs → ¬ k' `prefix_of` key
  end.
Proof.
  intros Hall.
  destruct (insertAll_success kvs New _ New_compressed New_rootSlash Hall)
    as (tr1 & [= <-] & Hcomp & _ & Hst & _).
  pose proof (built_stored_iff kvs tr Hall) as Hiff.
  unfold FindLongestMatch, checkTree.
  destruct (root tr) as [r|] eqn:Hr.
  2:{ intros k' v' Hin. destruct (Hst _ _ Hin) as [_ (r & Hr' & _)]. congruence. }
  destruct (bool_decide (key = [])) eqn:Ek.
  { apply bool_decide_eq_true in Ek. subst key. intros k' v' Hin [x Hx].
    destruct (Hst _ _ Hin) as [_ (r' & Hr' & Hs)].
    rewrite Hr in Hr'. injection Hr' as <-.
    apply (Stored_nonempty _ _ _ (Hcomp _ Hr) Hs). by destruct k'. }
  pose proof (findLongestMatchRec_longest r (Hcomp _ Hr) key) as Hlong.
  destruct (findLongestMatchRec r key) as [m|].
  - destruct Hlong as (k & nv & Hv & Hs & Hp & Hmax). rewrite Hv.
    split; [done|]. cbn.
    destruct (proj1 (Hiff k nv) (ex_intro _ r (conj Hr Hs))) as (v & Hin & ->).
    exists k. split_and!; [done | done |].
    intros k' v' Hin' Hp'. destruct (Hst _ _ Hin') as [_ (r' & Hr' & Hs')].
    rewrite Hr in Hr'. injection Hr' as <-. by eapply Hmax.
  - intros k' v' Hin' Hp'. destruct (Hst _ _ Hin') as [_ (r' & Hr' & Hs')].
    rewrite Hr in Hr'. injection Hr' as <-. by eapply Hlong.
Qed.

(** X9: on a tree built from the empty tree by successful inserts,
    [FindLongestMatch] returns the value of the longest inserted key that is
    a literal prefix of the search key (wildcard keys count as the text
    they are written as), with an empty parameter map, and absence exactly
    when no inserted key is a prefix of the search key. *)
Theorem FindLongestMatch_longest_prefix {T} (kvs : list (gostring * T))
    (tr : Tree T) key :
  insertAll kvs (Some New) = (None, Some tr) →
  match FindLongestMatch (Some tr) key with
  | Some fn =>
      fn_params fn = ∅ ∧
      ∃ k, (k, fn_value fn) ∈ kvs ∧ k `prefix_of` key ∧
           ∀ k' v', (k', v') ∈ kvs → k' `prefix_of` key → length k' ≤ length k
  | None => ∀ k' v', (k', v') ∈ kvs → ¬ k' `prefix_of` key
  end.
Proof. apply FindLongestMatch_built. Qed.

Lemma FindLongestMatch_longest_prefix_witness :
  insertAll [(str "/api", 1); (str "/api/{id}", 2)] (Some New)
    = (None, Some (mkTree (Some
        (mkNode (str "/api") (Some (mkNodeValue 1 []))
           [mkNode (str "/{id}")
              (Some (mkNodeValue 2 [mkParamInfo (str "id") 2])) []])))) ∧
  FindLongestMatch (Some (mkTree (Some
        (mkNode (str "/api") (Some (mkNodeValue 1 []))
           [mkNode (str "/{id}")
              (Some (mkNodeValue 2 [mkParamInfo (str "id") 2])) []]))))
      (str "/api/5") = Some (mkFoundNode 1 ∅) ∧
  ∃ k, (k, 1) ∈ [(str "/api", 1); (str "/api/{id}", 2)] ∧
       k `prefix_of` str "/api/5".
Proof.
  split; [reflexivity|]. split; [reflexivity|].
  pose proof (FindLongestMatch_longest_prefix
    [(str "/api", 1); (str "/api/{id}", 2)] _ (str "/api/5") eq_refl) as H.
  cbv beta iota in H. destruct H as (_ & k & Hin & Hp & _). by exists k.
Defined.

(** ** Traversals *)

Section Traversals.

Context {T : Type}.
Implicit Types (n c : Node T) (chs : list (Node T)) (nv : NodeValue T).

Lemma getAllLeafRec_unfold k v chs :
  getAllLeafRec (mkNode k v chs : Node T) =
    concat (map getAllLeafRec chs)
    ++ (if IsLeaf (mkNode k v chs) then [mkNode k v chs] else []).
Proof.
  assert (Hloop : ∀ l arr,
    (fix loop (l : list (Node T)) (arr : list (Node T)) : list (Node T) :=
       match l with
       | [] => arr
       | c :: rest =>
           let chArr := getAllLeafRec c in
           loop rest (if 0 <? length chArr then arr ++ chArr else arr)
       end) l arr = arr ++ concat (map getAllLeafRec l)).
  { induction l as [|c rest IHl]; intros arr; cbn [map concat].
    - by rewrite app_nil_r.
    - cbv zeta. rewrite IHl. destruct (getAllLeafRec c) as [|x xs] eqn:E; cbn.
      + done.
      + by rewrite <- app_assoc. }
  cbn [getAllLeafRec]. rewrite Hloop. cbn [app].
  destruct (IsLeaf _); [done | by rewrite app_nil_r].
Qed.

Lemma filter_concat {A} (P : A → Prop) `{∀ x, Decision (P x)} (ls : list (list A)) :
  filter P (concat ls) = concat (map (filter P) ls).
Proof.
  induction ls as [|l ls IH]; [done|]. cbn. by rewrite filter_app, IH.
Qed.

Lemma getAllLeafRec_postorder n :
  getAllLeafRec n = filter (λ m, IsLeaf m = true) (postorder n).
Proof.
  induction n as [k v chs IH] using Node_forall_ind.
  rewrite getAllLeafRec_unfold. cbn [postorder].
  rewrite filter_app, filter_concat, map_map. f_equal.
  - f_equal. apply map_ext_Forall. done.
  - destruct (IsLeaf (mkNode k v chs)) eqn:E.
    + by rewrite filter_cons_True.
    + rewrite filter_cons_False; [done | congruence].
Qed.

Lemma payloads_app (l1 l2 : list (Node T)) :
  payloads (l1 ++ l2) = payloads l1 ++ payloads l2.
Proof. apply omap_app. Qed.

(** The payloads below a node, in the order [getAllLeafRec] lists them. *)
Lemma payloads_node k v chs :
  payloads (getAllLeafRec (mkNode k v chs : Node T)) =
    concat (map (λ c, payloads (getAllLeafRec c)) chs) ++ option_list v.
Proof.
  rewrite getAllLeafRec_unfold, payloads_app. f_equal.
  - induction chs as [|c chs IH]; [done|]. cbn [map concat]. by rewrite payloads_app, IH.
  - unfold IsLeaf. cbn. by destruct v.
Qed.

Lemma option_list_Some {A} (x : A) : option_list (Some x) = [x].
Proof. done. Qed.

Lemma option_list_None {A} : option_list (@None A) = [].
Proof. done. Qed.

Lemma insertRec_payloads n : ∀ key value n',
  insertRec n key value = (None, n') →
  payloads (getAllLeafRec n') ≡ₚ value :: payloads (getAllLeafRec n).
Proof.
  induction n as [k v chs IH] using Node_forall_ind.
  intros key value n'. rewrite insertRec_unfold. cbv zeta.
  destruct (longestCommonPrefix k key =? 0); [done|].
  destruct (_ && _).
  { unfold IsLeaf. cbn [n_value]. destruct v as [nv0|]; [done|]. intros [= <-].
    rewrite !payloads_node, option_list_Some, option_list_None, app_nil_r.
    by rewrite Permutation_app_comm. }
  destruct (_ <? _).
  { unfold createNewNode. destruct (bool_decide _); intros [= <-].
    - rewrite (payloads_node _ (Some value)). cbn [map concat].
      rewrite option_list_Some, app_nil_r, !payloads_node.
      by rewrite Permutation_app_comm.
    - rewrite (payloads_node _ None). cbn [map concat].
      rewrite option_list_None, !app_nil_r. rewrite (payloads_node (drop _ key)).
      cbn [map concat app]. rewrite option_list_Some, !payloads_node.
      by rewrite Permutation_app_comm. }
  destruct (iterateInsert chs _ value) as [[e1|] chs1] eqn:Hit.
  - destruct (iterateInsert_failure _ (Forall_impl _ _ _ IH (λ c _, insertRec_failure c))
                _ _ _ _ Hit) as [-> Hcase].
    destruct Hcase as [[-> _]| ->]; [|done].
    change (negb (isNoCommonPrefix errNoCommonPrefix)) with false. cbv iota.
    intros [= <-]. unfold addToChildren, createNewNode. cbn [n_key n_value n_children].
    rewrite !payloads_node, map_app, concat_app. cbn [map concat].
    rewrite payloads_node. cbn [map concat app].
    rewrite option_list_Some, app_nil_r, <- app_assoc.
    cbn [app]. by rewrite <- Permutation_middle.
  - intros [= <-].
    destruct (iterateInsert_success _ _ _ _ Hit) as (pre & c & c' & post & -> & -> & Hins).
    apply Forall_app in IH as [_ IH]. apply Forall_cons in IH as [IHc _].
    rewrite !payloads_node, !map_app, !concat_app. cbn [map concat].
    rewrite (IHc _ _ _ Hins). rewrite <- !app_assoc. cbn [app].
    by rewrite <- Permutation_middle.
Qed.

Lemma Insert_payloads (tr tr' : Tree T) k v :
  Insert (Some tr) k v = (None, Some tr') →
  payloads (GetAllLeaf (Some tr'))
    ≡ₚ payloadOf (k, v) :: payloads (GetAllLeaf (Some tr)).
Proof.
  unfold Insert. destruct (bool_decide (k = [])); [done|].
  destruct (checkUrl k); [done|]. destruct tr as [[r|]]; cbn.
  - destruct (insertRec r k _) as [err r'] eqn:Hins. intros [= -> <-].
    cbn. by eapply insertRec_payloads.
  - by intros [= <-].
Qed.

Lemma insertAll_payloads (kvs : list (gostring * T)) : ∀ (tr : Tree T) tr',
  insertAll kvs (Some tr) = (None, Some tr') →
  payloads (GetAllLeaf (Some tr'))
    ≡ₚ map payloadOf kvs ++ payloads (GetAllLeaf (Some tr)).
Proof.
  induction kvs as [|[k v] kvs IH]; intros tr tr'; cbn [insertAll].
  - by intros [= <-].
  - destruct (Insert (Some tr) k v) as [[e|] t1] eqn:Hins; [done|].
    destruct t1 as [tr1|].
    2:{ unfold Insert in Hins. repeat case_match; simplify_eq. }
    intros Hall. rewrite (IH _ _ Hall), (Insert_payloads _ _ _ _ Hins).
    cbn [map app]. by rewrite Permutation_middle.
Qed.

Lemma find_app {A} (f : A → bool) (l1 l2 : list A) :
  List.find f (l1 ++ l2) =
    match List.find f l1 with Some x => Some x | None => List.find f l2 end.
Proof.
  induction l1 as [|x l1 IH]; [done|]. cbn. by destruct (f x).
Qed.

Lemma getByPredicateRec_preorder n (fn : Node T → bool) :
  getByPredicateRec n fn = List.find fn (preorder n).
Proof.
  induction n as [k v chs IH] using Node_forall_ind.
  cbn [getByPredicateRec preorder List.find].
  destruct (fn (mkNode k v chs)); [done|].
  induction IH as [|c rest Hc Hrest IHrest]; [done|].
  cbn [map concat]. rewrite find_app, <- Hc.
  destruct (getByPredicateRec c fn); [done | apply IHrest].
Qed.

End Traversals.

(** X10: [GetAllLeaf] lists the payload-carrying nodes of the tree,
    children before their parent and siblings in slice order; on a tree
    built from the empty tree by successful inserts it returns one node per
    inserted key, and the payloads of these nodes are, up to order, the
    payloads of the inserted keys. *)
Theorem GetAllLeaf_inserted {T} (kvs : list (gostring * T)) (tr : Tree T) :
  insertAll kvs (Some New) = (None, Some tr) →
  (∀ r, root tr = Some r →
        GetAllLeaf (Some tr) = filter (λ m, IsLeaf m = true) (postorder r)) ∧
  payloads (GetAllLeaf (Some tr)) ≡ₚ map payloadOf kvs ∧
  length (GetAllLeaf (Some tr)) = length kvs.
Proof.
  intros Hall.
  assert (Hperm : payloads (GetAllLeaf (Some tr)) ≡ₚ map payloadOf kvs).
  { rewrite (insertAll_payloads _ _ _ Hall). cbn. by rewrite app_nil_r. }
  assert (Hfilter : ∀ r, root tr = Some r →
            GetAllLeaf (Some tr) = filter (λ m, IsLeaf m = true) (postorder r)).
  { intros r Hr. unfold GetAllLeaf, checkTree. rewrite Hr.
    apply getAllLeafRec_postorder. }
  split_and!; [done | done |].
  apply Permutation_length in Hperm. rewrite length_map in Hperm.
  rewrite <- Hperm. unfold GetAllLeaf, checkTree.
  destruct (root tr) as [r|] eqn:Hr; [|done].
  rewrite getAllLeafRec_postorder. unfold payloads.
  induction (postorder r) as [|m l IH]; [done|].
  destruct (IsLeaf m) eqn:E.
  - rewrite filter_cons_True by done. cbn. unfold IsLeaf in E.
    destruct (n_value m); [|done]. cbn. by rewrite IH.
  - rewrite filter_cons_False by congruence. done.
Qed.

Lemma GetAllLeaf_inserted_witness :
  insertAll [(str "/foo", 1); (str "/foo/bar", 2); (str "/fo", 3)] (Some New)
    = (None, Some (mkTree (Some
        (mkNode (str "/fo") (Some (mkNodeValue 3 []))
           [mkNode (str "o") (Some (mkNodeValue 1 []))
              [mkNode (str "/bar") (Some (mkNodeValue 2 [])) []]])))) ∧
  length (GetAllLeaf (Some (mkTree (Some
        (mkNode (str "/fo") (Some (mkNodeValue 3 []))
           [mkNode (str "o") (Some (mkNodeValue 1 []))
              [mkNode (str "/bar") (Some (mkNodeValue 2 [])) []]]))))) = 3.
Proof.
  split; [reflexivity|].
  exact (proj2 (proj2 (GetAllLeaf_inserted
           [(str "/foo", 1); (str "/foo/bar", 2); (str "/fo", 3)] _ eq_refl))).
Defined.

(** X11: [GetByPredicate] returns the first node that satisfies the
    predicate when the tree is walked parent first and children in slice
    order; it returns a node only if the node is in the tree and satisfies
    the predicate, and it returns nothing exactly when no node of the tree
    does. *)
Theorem GetByPredicate_first {T} (tr : Tree T) (r : Node T) (fn : Node T → bool) :
  root tr = Some r →
  GetByPredicate (Some tr) fn = List.find fn (preorder r) ∧
  (∀ m, GetByPredicate (Some tr) fn = Some m → m ∈ preorder r ∧ fn m = true) ∧
  (GetByPredicate (Some tr) fn = None ↔ ∀ m, m ∈ preorder r → fn m = false).
Proof.
  intros Hr.
  assert (Heq : GetByPredicate (Some tr) fn = List.find fn (preorder r)).
  { unfold GetByPredicate, checkTree. rewrite Hr. apply getByPredicateRec_preorder. }
  rewrite Heq. split_and!; [done | |].
  - intros m [Hin Hfn]%find_some. by apply list_elem_of_In in Hin.
  - split.
    + intros Hnone m Hin. apply list_elem_of_In in Hin.
      by apply (find_none _ _ Hnone).
    + intros Hall. destruct (List.find fn (preorder r)) as [m|] eqn:E; [|done].
      apply find_some in E as [Hin Hfn]. apply list_elem_of_In in Hin.
      rewrite (Hall _ Hin) in Hfn. done.
Qed.

Lemma GetByPredicate_first_witness :
  root (mkTree (Some (mkNode (str "/fo") (Some (mkNodeValue 3 []))
           [mkNode (str "o") (Some (mkNodeValue 1 [])) []])))
    = Some (mkNode (str "/fo") (Some (mkNodeValue 3 []))
           [mkNode (str "o") (Some (mkNodeValue 1 [])) []]) ∧
  GetByPredicate (Some (mkTree (Some (mkNode (str "/fo") (Some (mkNodeValue 3 []))
           [mkNode (str "o") (Some (mkNodeValue 1 [])) []]))))
      (λ n, bool_decide (n_key n = str "o"))
    = Some (mkNode (str "o") (Some (mkNodeValue 1 [])) []).
Proof.
  split; [reflexivity|].
  exact (proj1 (GetByPredicate_first
           (mkTree (Some (mkNode (str "/fo") (Some (mkNodeValue 3 []))
              [mkNode (str "o") (Some (mkNodeValue 1 [])) []])))
           (mkNode (str "/fo") (Some (mkNodeValue 3 []))
              [mkNode (str "o") (Some (mkNodeValue 1 [])) []])
           (λ n, bool_decide (n_key n = str "o")) eq_refl)).
Defined.

(** ** Parameter binding *)

Lemma matchParams_loop_other (params : list paramInfo) (spl : list gostring) (mp : matchedParams) name :
  (∀ q, q ∈ params → pi_key q ≠ name) →
  matchParams_loop params spl mp !! name = mp !! name.
Proof.
  revert mp. induction params as [|p rest IH]; intros mp Hne; [done|].
  cbn [matchParams_loop]. cbv zeta.
  assert (Hrest : ∀ q, q ∈ rest → pi_key q ≠ name)
    by (intros q Hq; apply Hne; by right).
  destruct (length spl <=? Z.to_nat (pi_pos p)); [by apply IH|].
  destruct (spl !! Z.to_nat (pi_pos p)); [|by apply IH].
  rewrite IH by done. apply lookup_insert_ne. apply Hne. by left.
Qed.

Lemma matchParams_loop_sound (params : list paramInfo) (spl : list gostring) : ∀ (mp : matchedParams) name seg,
  matchParams_loop params spl mp !! name = Some seg →
  mp !! name = Some seg ∨
  ∃ p, p ∈ params ∧ pi_key p = name ∧ spl !! Z.to_nat (pi_pos p) = Some seg.
Proof.
  induction params as [|p rest IH]; intros mp name seg; [by left|].
  cbn [matchParams_loop]. cbv zeta.
  assert (Hlift : (mp !! name = Some seg ∨
             ∃ q, q ∈ rest ∧ pi_key q = name ∧ spl !! Z.to_nat (pi_pos q) = Some seg) →
           mp !! name = Some seg ∨
             ∃ q, q ∈ p :: rest ∧ pi_key q = name
                  ∧ spl !! Z.to_nat (pi_pos q) = Some seg).
  { intros [H | (q & Hq & H1 & H2)]; [by left|]. right. exists q.
    split; [by right | done]. }
  destruct (length spl <=? Z.to_nat (pi_pos p)); [intros H; by apply Hlift, IH|].
  destruct (spl !! Z.to_nat (pi_pos p)) as [s0|] eqn:Es;
    [|intros H; by apply Hlift, IH].
  intros [H | H]%IH; [|by apply Hlift; right].
  destruct (decide (pi_key p = name)) as [Heq | Hne].
  - rewrite Heq, lookup_insert_eq in H. injection H as <-. right. exists p.
    split; [by left | done].
  - rewrite lookup_insert_ne in H by done. by left.
Qed.

Lemma matchParams_loop_bound (params : list paramInfo) (spl : list gostring) : ∀ (mp : matchedParams) p,
  NoDup (map pi_key params) → p ∈ params →
  matchParams_loop params spl mp !! pi_key p =
    match spl !! Z.to_nat (pi_pos p) with
    | Some seg => Some seg
    | None => mp !! pi_key p
    end.
Proof.
  induction params as [|q rest IH]; intros mp p Hnd Hp; [by inversion Hp|].
  cbn [map] in Hnd. apply NoDup_cons in Hnd as [Hq Hnd].
  cbn [matchParams_loop]. cbv zeta.
  apply elem_of_cons in Hp as [-> | Hp].
  - assert (Hother : ∀ q0, q0 ∈ rest → pi_key q0 ≠ pi_key q).
    { intros q0 Hq0 Heq. apply Hq. rewrite <- Heq.
      apply list_elem_of_fmap. by exists q0. }
    destruct (length spl <=? Z.to_nat (pi_pos q)) eqn:El.
    + apply Nat.leb_le in El. rewrite matchParams_loop_other by done.
      by rewrite (lookup_ge_None_2 spl).
    + destruct (spl !! Z.to_nat (pi_pos q)) as [seg|];
        rewrite matchParams_loop_other by done; [|done].
      by rewrite lookup_insert_eq.
  - assert (Hne : pi_key q ≠ pi_key p).
    { intros Heq. apply Hq. rewrite Heq. apply list_elem_of_fmap. by exists p. }
    destruct (length spl <=? Z.to_nat (pi_pos q)); [by apply IH|].
    destruct (spl !! Z.to_nat (pi_pos q)) as [seg|]; [|by apply IH].
    rewrite IH by done. by rewrite lookup_insert_ne.
Qed.

(** X12: every binding of the map [matchParams] returns comes from a
    descriptor: its name is the descriptor's and its value is the segment of
    the search key at the descriptor's position; when the names of the
    descriptors are pairwise different, each descriptor is bound to the
    segment at its position, and is left out exactly when the search key
    has no segment there. *)
Theorem matchParams_bindings (params : list paramInfo) (v : gostring) :
  (∀ name seg, matchParams params v !! name = Some seg →
     ∃ p, p ∈ params ∧ pi_key p = name ∧
          Split v slash !! Z.to_nat (pi_pos p) = Some seg) ∧
  (NoDup (map pi_key params) →
   ∀ p, p ∈ params →
     matchParams params v !! pi_key p = Split v slash !! Z.to_nat (pi_pos p)).
Proof.
  unfold matchParams. split.
  - intros name seg H. apply matchParams_loop_sound in H as [H | H]; [|done].
    by rewrite lookup_empty in H.
  - intros Hnd p Hp. rewrite matchParams_loop_bound by done.
    by destruct (Split v slash !! Z.to_nat (pi_pos p)).
Qed.

Lemma matchParams_bindings_witness :
  NoDup (map pi_key [mkParamInfo (str "first-one") 2; mkParamInfo (str "second-one") 7]) ∧
  matchParams [mkParamInfo (str "first-one") 2; mkParamInfo (str "second-one") 7]
      (str "/foo/bar/baz") !! str "first-one" = Some (str "bar") ∧
  matchParams [mkParamInfo (str "first-one") 2; mkParamInfo (str "second-one") 7]
      (str "/foo/bar/baz") !! str "second-one" = None.
Proof.
  assert (Hnd : NoDup (map pi_key [mkParamInfo (str "first-one") 2;
                                   mkParamInfo (str "second-one") 7])).
  { apply NoDup_cons. split; [|apply NoDup_singleton].
    intros H%list_elem_of_singleton. discriminate H. }
  split; [exact Hnd|]. split.
  - exact (proj2 (matchParams_bindings _ (str "/foo/bar/baz")) Hnd
             (mkParamInfo (str "first-one") 2) ltac:(left)).
  - exact (proj2 (matchParams_bindings _ (str "/foo/bar/baz")) Hnd
             (mkParamInfo (str "second-one") 7) ltac:(right; left)).
Defined.

(** ** Validated keys *)

Lemma checkPathParams_loop_balanced url : ∀ st,
  checkPathParams_loop url st = None →
  ∃ seg segs, Split url slash = seg :: segs ∧
    Count seg curlyStart + (if st then 1 else 0) = Count seg curlyEnd ∧
    Forall (λ el, Count el curlyStart = Count el curlyEnd) segs.
Proof.
  induction url as [|c url IH]; intros st.
  - cbn. destruct st; [done|]. intros _. by exists [], [].
  - rewrite checkPathParams_loop_cons.
    destruct (malformedAt st c) eqn:Ebad; [done|]. intros Hloop.
    destruct (IH _ Hloop) as (seg & segs & Hs & Hbal & Hall).
    unfold malformedAt, scanStep in *.
    destruct (decide (c = slash)) as [-> | Hc].
    + rewrite Split_cons_sep. exists [], (seg :: segs).
      change (Ascii.eqb slash curlyStart) with false in *.
      change (Ascii.eqb slash curlyEnd) with false in *.
      rewrite Ascii.eqb_refl in Ebad. cbn in Ebad. subst st.
      split; [by rewrite Hs|]. split; [done|]. constructor; [|done]. lia.
    + destruct (Split_cons_other c url slash Hc) as (seg' & segs' & Hs' & ->).
      rewrite Hs in Hs'. injection Hs' as <- <-.
      exists (c :: seg), segs. split; [done|]. split; [|done].
      rewrite !Count_cons.
      rewrite (proj2 (ascii_eqb_false c slash) Hc) in Ebad.
      destruct (Ascii.eqb c curlyStart) eqn:E1, (Ascii.eqb c curlyEnd) eqn:E2,
        st; cbn in *; try done; try lia.
Qed.

(** X13: a key that passes [checkUrl] starts with a slash, ends with one
    only if it is the key ["/"], and has its braces balanced inside every
    segment: each segment of its split on slashes holds as many opening as
    closing braces, and so does the key. *)
Theorem checkUrl_balanced (url : gostring) :
  checkUrl url = None →
  head url = Some slash ∧
  (last url = Some slash → url = [slash]) ∧
  Forall (λ el, Count el curlyStart = Count el curlyEnd) (Split url slash) ∧
  Count url curlyStart = Count url curlyEnd.
Proof.
  intros Hurl.
  assert (Hsegs : Forall (λ el, Count el curlyStart = Count el curlyEnd)
                    (Split url slash)).
  { revert Hurl. unfold checkUrl. repeat case_match; try done.
    rewrite checkPathParams_loop_eq.
    intros (seg & segs & -> & Hbal & Hall)%checkPathParams_loop_balanced.
    constructor; [lia | done]. }
  split_and!; [by apply checkUrl_head | | done |].
  - revert Hurl. unfold checkUrl.
    destruct (bool_decide (head url = Some slash)); cbn [negb]; [|done].
    destruct (bool_decide (last url = Some slash)) eqn:E1;
      destruct (bool_decide (url = [slash])) eqn:E2; cbn; try done.
    + by apply bool_decide_eq_true in E2.
    + apply bool_decide_eq_false in E1. done.
    + apply bool_decide_eq_false in E1. done.
  - rewrite !Count_Split by done.
    induction Hsegs as [|el rest Hel Hrest IH]; [done|]. cbn. by rewrite Hel, IH.
Qed.

Lemma checkUrl_balanced_witness :
  checkUrl (str "/api/{resource}/get/{id}") = None ∧
  Count (str "/api/{resource}/get/{id}") curlyStart
    = Count (str "/api/{resource}/get/{id}") curlyEnd.
Proof.
  split; [reflexivity|].
  exact (proj2 (proj2 (proj2
           (checkUrl_balanced (str "/api/{resource}/get/{id}") eq_refl)))).
Defined.

(** ** The older validator *)

Lemma checkPathParams_legacy_step_eq (c : ascii) (st : bool) :
  checkPathParams_legacy_step c st =
    if malformedAt st c then None else Some (scanStep st c).
Proof.
  unfold checkPathParams_legacy_step, malformedAt, scanStep.
  destruct (Ascii.eqb c slash) eqn:E1, (Ascii.eqb c curlyStart) eqn:E2,
    (Ascii.eqb c curlyEnd) eqn:E3, st; cbn; try done.
  all: repeat match goal with
         | H : Ascii.eqb _ _ = true |- _ => apply ascii_eqb_true in H
         end; subst; discriminate.
Qed.

Lemma checkPathParams_legacy_loop_eq (url : gostring) : ∀ st,
  checkPathParams_legacy_loop url st = checkPathParams_loop url st.
Proof.
  induction url as [|c url IH]; intros st; [done|].
  rewrite checkPathParams_loop_cons. cbn [checkPathParams_legacy_loop].
  rewrite checkPathParams_legacy_step_eq.
  destruct (malformedAt st c); [done | apply IH].
Qed.

(** X14: the validator of the older copy of the file ([tree.go]) and the
    validator of v1.0.2 differ on the key ["/"] and on no other key: the
    brace scans of the two files agree on every string, and the older
    [checkUrl] rejects ["/"] for its trailing slash where the newer one
    accepts it. *)
Theorem checkUrl_legacy_full_diff (url : gostring) :
  checkPathParams_legacy url = checkPathParams url ∧
  (url ≠ [slash] → checkUrl_legacy_full url = checkUrl url) ∧
  checkUrl_legacy_full [slash] = Some errPresentSlashSuffix ∧
  checkUrl [slash] = None.
Proof.
  assert (Hpp : ∀ u, checkPathParams_legacy u = checkPathParams u).
  { intros u. unfold checkPathParams_legacy, checkPathParams.
    by rewrite checkPathParams_legacy_loop_eq. }
  split_and!; [done | | done | done].
  intros Hne. unfold checkUrl_legacy_full, checkUrl.
  by rewrite Hpp, (bool_decide_eq_false_2 _ Hne), andb_true_r.
Qed.

Lemma checkUrl_legacy_full_diff_witness :
  str "/foo/{id}/" ≠ [slash] ∧
  checkUrl_legacy_full (str "/foo/{id}/") = checkUrl (str "/foo/{id}/").
Proof.
  assert (H : str "/foo/{id}/" ≠ [slash]) by discriminate.
  split; [exact H|].
  exact (proj1 (proj2 (checkUrl_legacy_full_diff (str "/foo/{id}/"))) H).
Defined.

(** ** One wildcard segment, any text in its place *)

Lemma braceFree_spec (x : gostring) :
  braceFree x = true →
  ContainsRune x curlyStart = false ∧ ContainsRune x curlyEnd = false.
Proof.
  unfold braceFree. intros [H1 H2]%andb_true_iff.
  by apply negb_true_iff in H1, H2.
Qed.

Lemma IndexRune_absent (x : gostring) (c : ascii) :
  ContainsRune x c = false → IndexRune x c = (-1)%Z.
Proof.
  induction x as [|y x IH]; [done|]. rewrite ContainsRune_cons.
  intros [H1 H2]%orb_false_iff. cbn [IndexRune]. rewrite H1, (IH H2). done.
Qed.

Lemma IndexRune_first (x rest : gostring) (c : ascii) :
  ContainsRune x c = false →
  IndexRune (x ++ c :: rest) c = Z.of_nat (length x).
Proof.
  induction x as [|y x IH].
  - intros _. cbn. by rewrite Ascii.eqb_refl.
  - rewrite ContainsRune_cons. intros [H1 H2]%orb_false_iff.
    cbn [app IndexRune length]. rewrite H1, (IH H2).
    destruct (Z.of_nat (length x) =? -1)%Z eqn:E; [apply Z.eqb_eq in E|]; lia.
Qed.

Lemma getOffsets_loop_skip_app (name rest searchKey : gostring) :
  ContainsRune name curlyStart = false →
  ContainsRune name curlyEnd = false →
  ∀ i j, getOffsets_loop (name ++ rest) searchKey i j true
         = getOffsets_loop rest searchKey (i + length name) j true.
Proof.
  induction name as [|c name IH]; intros H1 H2 i j.
  - cbn. by rewrite Nat.add_0_r.
  - rewrite ContainsRune_cons in H1, H2.
    apply orb_false_iff in H1 as [H1 H1']. apply orb_false_iff in H2 as [H2 H2'].
    cbn [app getOffsets_loop length].
    rewrite H1, H2, andb_false_r. rewrite IH by done. by rewrite Nat.add_succ_r.
Qed.

(** The scan of the rest of a wildcard fragment, from the opening brace on,
    against the text that stands for the segment and the rest of the key. *)
Lemma getOffsets_wildcard (name post s : gostring) :
  ContainsRune name curlyStart = false →
  ContainsRune name curlyEnd = false →
  braceFree post = true →
  post = [] ∨ head post = Some slash →
  ContainsRune s slash = false →
  getOffsets ((curlyStart :: name ++ [curlyEnd]) ++ post) (s ++ post) true
    = (length ((curlyStart :: name ++ [curlyEnd]) ++ post),
       length (s ++ post), false).
Proof.
  intros Hn1 Hn2 [Hp1 Hp2]%braceFree_spec Hpost Hs. unfold getOffsets.
  cbn [app getOffsets_loop]. rewrite andb_false_r.
  change (Ascii.eqb curlyStart curlyStart) with true. cbv iota.
  rewrite <- app_assoc. rewrite getOffsets_loop_skip_app by done.
  cbn [app getOffsets_loop]. rewrite andb_false_r.
  change (Ascii.eqb curlyEnd curlyStart) with false.
  change (Ascii.eqb curlyEnd curlyEnd) with true. cbv iota zeta.
  rewrite drop_0.
  assert (Hj : (0 + (if (IndexRune (s ++ post) slash =? -1)%Z
                     then length (s ++ post)
                     else Z.to_nat (IndexRune (s ++ post) slash))) = length s).
  { destruct Hpost as [-> | Hh].
    - rewrite app_nil_r, (IndexRune_absent _ _ Hs). done.
    - destruct post as [|c post']; [done|]. injection Hh as ->.
      rewrite (IndexRune_first _ _ _ Hs).
      destruct (Z.of_nat (length s) =? -1)%Z eqn:E; [apply Z.eqb_eq in E|]; lia. }
  rewrite Hj, getOffsets_loop_static by done.
  rewrite drop_app_length, lcp_refl, !length_app. cbn [length].
  rewrite length_app. cbn [length]. f_equal. f_equal. lia.
Qed.

Lemma Split_no_sep (x : gostring) (sep : ascii) :
  ContainsRune x sep = false → Split x sep = [x].
Proof.
  induction x as [|c x IH]; [done|]. rewrite ContainsRune_cons.
  intros [H1 H2]%orb_false_iff. cbn [Split]. by rewrite H1, (IH H2).
Qed.

Lemma Split_app_sep (a b : gostring) (sep : ascii) :
  Split (a ++ sep :: b) sep = Split a sep ++ Split b sep.
Proof.
  induction a as [|c a IH].
  - cbn [app]. by rewrite Split_cons_sep.
  - cbn [app Split]. destruct (Ascii.eqb c sep); rewrite IH; [done|].
    pose proof (Split_nonempty a sep). by destruct (Split a sep).
Qed.

Lemma Split_ContainsRune (x : gostring) (a : ascii) :
  ContainsRune x a = false →
  Forall (λ seg, ContainsRune seg a = false) (Split x slash).
Proof.
  induction x as [|c x IH]; [by repeat constructor|].
  rewrite ContainsRune_cons. intros [H1 H2]%orb_false_iff.
  specialize (IH H2). cbn [Split]. destruct (Ascii.eqb c slash).
  - by constructor.
  - pose proof (Split_nonempty x slash) as Hne.
    destruct (Split x slash) as [|seg segs]; [done|].
    apply Forall_cons in IH as [Hseg Hsegs]. constructor; [|done].
    by rewrite ContainsRune_cons, H1, Hseg.
Qed.

(** The segments of [pre/x post] when [x] holds no slash and [post] is empty
    or starts a new segment: those of [pre], then [x], then those of the
    rest. *)
Lemma Split_middle (pre x post : gostring) :
  ContainsRune x slash = false →
  post = [] ∨ head post = Some slash →
  ∃ tails, Split (pre ++ slash :: x ++ post) slash
             = Split pre slash ++ x :: tails
           ∧ ∀ a, ContainsRune post a = false →
                  Forall (λ seg, ContainsRune seg a = false) tails.
Proof.
  intros Hx Hpost. rewrite Split_app_sep. destruct Hpost as [-> | Hh].
  - exists []. rewrite app_nil_r, (Split_no_sep _ _ Hx). by split.
  - destruct post as [|c post']; [done|]. injection Hh as ->.
    exists (Split post' slash). rewrite Split_app_sep, (Split_no_sep _ _ Hx).
    split; [done|]. intros a. rewrite ContainsRune_cons.
    intros [_ H]%orb_false_iff. by apply Split_ContainsRune.
Qed.

Lemma wildcards_app (l1 l2 : list gostring) (i : nat) :
  wildcards (l1 ++ l2) i = wildcards l1 i ++ wildcards l2 (i + length l1).
Proof.
  revert i. induction l1 as [|el l1 IH]; intros i.
  - cbn. by rewrite Nat.add_0_r.
  - cbn [app wildcards length]. rewrite IH, Nat.add_succ_r.
    by destruct (ContainsRune el curlyStart).
Qed.

Lemma wildcards_none (l : list gostring) (i : nat) :
  Forall (λ seg, ContainsRune seg curlyStart = false) l → wildcards l i = [].
Proof.
  intros H. revert i. induction H as [|el l Hel Hl IH]; intros i; [done|].
  cbn [wildcards]. by rewrite Hel.
Qed.

Lemma Count_app (x y : gostring) (a : ascii) :
  Count (x ++ y) a = Count x a + Count y a.
Proof. unfold Count. by rewrite filter_app, length_app. Qed.

Lemma stripEnds_wrapped (name : gostring) :
  stripEnds (curlyStart :: name ++ [curlyEnd]) = name.
Proof.
  unfold stripEnds. cbn [length]. rewrite length_app. cbn [length].
  replace (S (length name + 1) - 1) with (S (length name)) by lia.
  cbn [take drop]. by rewrite take_app_length.
Qed.

(** The descriptors of a key with one wildcard segment. *)
Lemma getPathParams_wildcardKey (pre name post : gostring) :
  checkUrl (wildcardKey pre name post) = None →
  braceFree pre = true → braceFree name = true → braceFree post = true →
  ContainsRune name slash = false →
  post = [] ∨ head post = Some slash →
  getPathParams (wildcardKey pre name post)
    = [mkParamInfo name (uint8 (Z.of_nat (length (Split pre slash))))].
Proof.
  intros Hurl [Hpre1 Hpre2]%braceFree_spec [Hn1 Hn2]%braceFree_spec
    [Hp1 Hp2]%braceFree_spec Hns Hpost.
  rewrite (getPathParams_spec _ (checkUrl_segments _ Hurl)).
  assert (Hwild : ContainsRune (curlyStart :: name ++ [curlyEnd]) slash = false).
  { rewrite ContainsRune_cons. apply orb_false_iff. split; [done|].
    apply ContainsRune_false. intros [H | H]%elem_of_app.
    - by apply ContainsRune_false in Hns.
    - apply list_elem_of_singleton in H. discriminate H. }
  unfold wildcardKey.
  destruct (Split_middle pre _ post Hwild Hpost) as (tails & -> & Htails).
  rewrite wildcards_app, (wildcards_none (Split pre slash))
    by (by apply Split_ContainsRune).
  cbn [app wildcards]. change (ContainsRune (curlyStart :: name ++ [curlyEnd]) curlyStart)
    with true. cbv iota.
  rewrite (wildcards_none tails) by (by apply Htails).
  rewrite stripEnds_wrapped. cbn [length Nat.add].
  repeat (rewrite Count_app || rewrite Count_cons).
  rewrite (Count_zero _ _ Hpre1), (Count_zero _ _ Hp1), (Count_zero _ _ Hn1).
  change (Ascii.eqb slash curlyStart) with false.
  change (Ascii.eqb curlyStart curlyStart) with true.
  change (Count [curlyEnd] curlyStart) with 0.
  done.
Qed.

Lemma matchParams_wildcardSearch (pre name post s : gostring) :
  ContainsRune s slash = false →
  post = [] ∨ head post = Some slash →
  length (Split pre slash) < 256 →
  matchParams [mkParamInfo name (uint8 (Z.of_nat (length (Split pre slash))))]
              (wildcardSearch pre s post)
    = {[ name := s ]}.
Proof.
  intros Hs Hpost Hidx. unfold matchParams, wildcardSearch.
  destruct (Split_middle pre s post Hs Hpost) as (tails & -> & _).
  cbn [matchParams_loop pi_pos pi_key]. cbv zeta. unfold uint8.
  rewrite Z.mod_small by lia. rewrite Nat2Z.id.
  rewrite length_app. cbn [length].
  rewrite (proj2 (Nat.leb_gt _ _)) by lia.
  rewrite (list_lookup_middle _ _ _ _ eq_refl). by rewrite insert_empty.
Qed.

Lemma drop_after_slash (pre rest : gostring) :
  drop (length (pre ++ [slash])) (pre ++ slash :: rest) = rest.
Proof.
  assert (pre ++ slash :: rest = (pre ++ [slash]) ++ rest) as ->
    by (by rewrite <- app_assoc).
  apply drop_app_length.
Qed.

Lemma lcp_wildcard (pre name post s : gostring) :
  post = [] ∨ head post = Some slash →
  head s ≠ Some curlyStart →
  longestCommonPrefix (wildcardKey pre name post) (wildcardSearch pre s post)
    = length (pre ++ [slash]).
Proof.
  intros Hpost Hs. unfold wildcardKey, wildcardSearch.
  rewrite !(cons_middle slash), !app_assoc, <- !(app_assoc (pre ++ [slash])).
  rewrite lcp_app_same.
  assert (Hz : longestCommonPrefix ((curlyStart :: name ++ [curlyEnd]) ++ post)
                 (s ++ post) = 0).
  { apply lcp_zero. destruct s as [|c s'].
    - destruct Hpost as [-> | Hh]; [by right; left|].
      destruct post as [|c post']; [done|]. injection Hh as ->.
      right. right. cbn. discriminate.
    - right. right. cbn in *. congruence. }
  rewrite Hz, ?app_nil_r. lia.
Qed.

(** X15: a tree that holds one key with one wildcard segment,
    [pre/{name}post], finds every search key [pre/s post] that puts a text
    [s] without slashes (the empty text included) in the place of the
    wildcard segment, and binds [name] to [s].  The text must not start
    with an opening brace, and the wildcard must sit below segment 256. *)
Theorem Find_wildcard_round_trip {T} (pre name post s : gostring) (v : T) :
  checkUrl (wildcardKey pre name post) = None →
  braceFree pre = true → braceFree name = true → braceFree post = true →
  ContainsRune name slash = false →
  post = [] ∨ head post = Some slash →
  ContainsRune s slash = false →
  head s ≠ Some curlyStart →
  length (Split pre slash) < 256 →
  Find (Insert (Some New) (wildcardKey pre name post) v).2
       (wildcardSearch pre s post)
    = Some (mkFoundNode v {[ name := s ]}).
Proof.
  intros Hurl Hpre Hname Hpostb Hns Hpost Hs Hhs Hidx.
  pose proof (getPathParams_wildcardKey pre name post Hurl Hpre Hname Hpostb Hns Hpost)
    as Hparams.
  pose proof (lcp_wildcard pre name post s Hpost Hhs) as Hlcp.
  destruct (braceFree_spec _ Hname) as [Hn1 Hn2].
  pose proof (getOffsets_wildcard name post s Hn1 Hn2 Hpostb Hpost Hs) as Hoff.
  assert (Hkne : wildcardKey pre name post ≠ []) by (unfold wildcardKey; by destruct pre).
  assert (Hsne : wildcardSearch pre s post ≠ []) by (unfold wildcardSearch; by destruct pre).
  assert (Hwild : ContainsRune (wildcardKey pre name post) curlyStart = true).
  { apply ContainsRune_true. unfold wildcardKey.
    apply elem_of_app. right. right. by left. }
  assert (Hdk : drop (length (pre ++ [slash])) (wildcardKey pre name post)
                = (curlyStart :: name ++ [curlyEnd]) ++ post).
  { unfold wildcardKey. apply drop_after_slash. }
  assert (Hds : drop (length (pre ++ [slash])) (wildcardSearch pre s post)
                = s ++ post).
  { unfold wildcardSearch. apply drop_after_slash. }
  unfold Insert. rewrite (bool_decide_eq_false_2 _ Hkne), Hurl.
  cbn [New root snd]. unfold Find, checkTree. cbn [root].
  rewrite (bool_decide_eq_false_2 _ Hsne).
  unfold createNewNode. rewrite findRec_unfold. cbv zeta.
  rewrite Hwild, Hlcp, Hdk, Hds, Hoff. cbn [negb]. rewrite andb_false_r.
  rewrite Nat.eqb_refl. cbn [negb].
  rewrite drop_all, bool_decide_eq_true_2 by done.
  cbn [IsLeaf n_value createNewNodeValue nv_value nv_params].
  unfold createNewNodeValue. cbn [nv_value nv_params].
  by rewrite Hparams, matchParams_wildcardSearch.
Qed.

Lemma Find_wildcard_round_trip_witness :
  checkUrl (wildcardKey (str "/foo") (str "id") (str "/baz")) = None ∧
  wildcardKey (str "/foo") (str "id") (str "/baz") = str "/foo/{id}/baz" ∧
  wildcardSearch (str "/foo") (str "some-text") (str "/baz")
    = str "/foo/some-text/baz" ∧
  Find (Insert (Some New) (str "/foo/{id}/baz") 7).2 (str "/foo/some-text/baz")
    = Some (mkFoundNode 7 {[ str "id" := str "some-text" ]}).
Proof.
  split; [reflexivity|]. split; [reflexivity|]. split; [reflexivity|].
  apply (Find_wildcard_round_trip (str "/foo") (str "id") (str "/baz")
           (str "some-text") 7);
    try reflexivity.
  - by right.
  - discriminate.
  - vm_compute. lia.
Defined.

(** X16: on a tree built from the empty tree by successful inserts,
    wildcard keys included, [FindLongestMatch] of an inserted key returns
    the value inserted with it: the lookup reads a stored key as the text
    it is written as, so no other key shadows it. *)
Theorem FindLongestMatch_round_trip {T} (kvs : list (gostring * T))
    (tr : Tree T) k v :
  insertAll kvs (Some New) = (None, Some tr) →
  (k, v) ∈ kvs →
  FindLongestMatch (Some tr) k = Some (mkFoundNode v ∅).
Proof.
  intros Hall Hin.
  pose proof (FindLongestMatch_built kvs tr k Hall) as Hlong.
  destruct (insertAll_log kvs New _ New_compressed Hall)
    as (tr2 & _ & _ & _ & Hnd).
  destruct (FindLongestMatch (Some tr) k) as [[v0 ps]|].
  - cbn in Hlong. destruct Hlong as (-> & k0 & Hin0 & Hp & Hmax).
    specialize (Hmax _ _ Hin (ex_intro _ [] (eq_sym (app_nil_r k)))).
    destruct Hp as [r Hr]. assert (r = []) as ->.
    { apply (f_equal length) in Hr. rewrite length_app in Hr.
      destruct r; [done | cbn in Hr; lia]. }
    rewrite app_nil_r in Hr. subst k0.
    assert (v0 = v) as ->; [|done].
    destruct (list_elem_of_lookup_1 _ _ Hin0) as [i1 Hi1].
    destruct (list_elem_of_lookup_1 _ _ Hin) as [i2 Hi2].
    assert (i1 = i2) as ->.
    { apply (NoDup_lookup _ _ _ k Hnd); rewrite list_lookup_fmap.
      - by rewrite Hi1.
      - by rewrite Hi2. }
    congruence.
  - exfalso. by apply (Hlong _ _ Hin).
Qed.

Lemma FindLongestMatch_round_trip_witness :
  insertAll [(str "/{id}", 1); (str "/foo", 2)] (Some New)
    = (None, Some (mkTree (Some
        (mkNode (str "/") None
           [mkNode (str "{id}")
              (Some (mkNodeValue 1 [mkParamInfo (str "id") 1])) [];
            mkNode (str "foo") (Some (mkNodeValue 2 [])) []])))) ∧
  FindLongestMatch (Some (mkTree (Some
        (mkNode (str "/") None
           [mkNode (str "{id}")
              (Some (mkNodeValue 1 [mkParamInfo (str "id") 1])) [];
            mkNode (str "foo") (Some (mkNodeValue 2 [])) []]))))
      (str "/foo") = Some (mkFoundNode 2 ∅).
Proof.
  split; [reflexivity|].
  apply (FindLongestMatch_round_trip [(str "/{id}", 1); (str "/foo", 2)] _
           (str "/foo") 2 eq_refl).
  right. left.
Defined.
